(** * bambi/backends/pymc.py: the PyMC3 model-fitting back-end

    A shallow embedding of [PyMC3BackEnd] ([reset], [_build_dist], [build],
    [run]) and of the module-level [_laplace].

    The back-end is glue over the PyMC3 / Theano / NumPy runtime.  What the
    runtime decides (which names the [pm] module exports, which class of
    random variable a distribution yields, the MAP optimiser, determinants
    and inverses) is taken as a [runtime] record; what the back-end itself
    decides (resolution order, hyperprior expansion, the non-centered
    branch, the linear predictor, method dispatch, the reshaping walk) is
    written out. *)

From Stdlib Require Import List String Ascii ZArith Lia Bool Arith PeanoNat.
Import ListNotations.
Set Warnings "-register-all".
Open Scope string_scope.
Open Scope list_scope.

(** ** Keyword dictionaries

    Python dicts keep insertion order, and the order in which
    [kwargs.items()] is walked fixes the order in which hyperpriors are
    declared, so a dict is an association list with the dict operations on
    top. *)

Fixpoint lookup {A : Type} (k : string) (d : list (string * A)) : option A :=
  match d with
  | [] => None
  | (k', v) :: rest => if String.eqb k k' then Some v else lookup k rest
  end.

Definition mem {A : Type} (k : string) (d : list (string * A)) : bool :=
  match lookup k d with Some _ => true | None => false end.

(** [d[k] = v]: overwrite in place, or append a new key. *)
Fixpoint dict_set {A : Type} (k : string) (v : A) (d : list (string * A))
  : list (string * A) :=
  match d with
  | [] => [(k, v)]
  | (k', v') :: rest =>
      if String.eqb k k' then (k', v) :: rest else (k', v') :: dict_set k v rest
  end.

Fixpoint dict_remove {A : Type} (k : string) (d : list (string * A))
  : list (string * A) :=
  match d with
  | [] => []
  | (k', v') :: rest =>
      if String.eqb k k' then dict_remove k rest else (k', v') :: dict_remove k rest
  end.

(** [dict(pairs)]: later pairs overwrite earlier ones. *)
Definition dict_of {A : Type} (pairs : list (string * A)) : list (string * A) :=
  fold_left (fun d kv => dict_set (fst kv) (snd kv) d) pairs [].

Definition keys {A : Type} (d : list (string * A)) : list string := map fst d.

(** [str.lower()] on the ASCII range.  Strings are byte strings here; the
    three method names are ASCII and no character outside ASCII lowers to
    one of their letters, so comparing against them is decided by the
    ASCII letters alone. *)
Definition lower_ascii (c : ascii) : ascii :=
  let n := nat_of_ascii c in
  if Nat.leb 65 n && Nat.leb n 90 then ascii_of_nat (n + 32) else c.

Fixpoint lower (s : string) : string :=
  match s with
  | EmptyString => EmptyString
  | String c rest => String (lower_ascii c) (lower rest)
  end.

Section Backend.

(** Carriers supplied by the runtime: array scalars, the objects found in
    the [pm] namespace, the runtime's own exceptions, and the three kinds of
    inference results. *)
Context {F callable rt_exn trace idata advi : Type}.

(** ** Arrays, tensors and values *)

(** A NumPy array: its shape and its elements in row-major order. *)
Record ndarray := mk_ndarray { shape : list nat; items : list F }.

(** Theano element-wise functions used by the link registry. *)
Inductive tensor_fun :=
| Sigmoid
| TInv
| TSqrt
| TExp
| TCall (c : callable).

(** Symbolic Theano expressions, as far as [build] composes them. *)
Inductive expr :=
| EConst (a : ndarray)
| EVar (name : string)
| EAdd (a b : expr)
| EMul (a b : expr)
| EDot (a b : expr)
| ETake (a : expr) (idx : list Z)
| EColumn (a : expr)
| EApply (f : tensor_fun) (a : expr).

Inductive rv_class := FreeRV | TransformedRV | ObservedRV | DeterministicRV.

(** The object a declaration returns: a handle on a named model variable. *)
Record rv := mk_rv { rv_cls : rv_class; rv_name : string }.

(** A distribution identifier: a string to resolve, or already an object. *)
Inductive dist_id :=
| DName (s : string)
| DObj (c : callable).

(** Values found in keyword arguments.  [VPrior] is [bambi.priors.Prior]:
    a distribution name and its own argument dict. *)
Inductive value :=
| VInt (z : Z)
| VFloat (x : F)
| VArray (a : ndarray)
| VExpr (e : expr)
| VRV (r : rv)
| VPrior (name : dist_id) (args : list (string * value)).

Definition kwargs := list (string * value).

(** ** The model graph: the variables declared so far, oldest first. *)
Inductive node :=
| NDist (name : string) (d : callable) (kw : kwargs) (c : rv_class)
| NDeterministic (name : string) (e : expr).

Definition graph := list node.

Definition node_name (n : node) : string :=
  match n with
  | NDist name _ _ _ => name
  | NDeterministic name _ => name
  end.

(** ** Exceptions: those raised by this module or by the Python call
    protocol, and those of the runtime, which propagate unmodified. *)
Inductive exn :=
| ValueError (msg : string)
| KeyError (key : string)
| TypeError (msg : string)
| IndexError (msg : string)
| LinAlgError (msg : string)
| Propagated (e : rt_exn).

(** ** State and exceptions *)
Definition M (S A : Type) : Type := S -> (exn + A) * S.

Definition ret {S A : Type} (a : A) : M S A := fun s => (inr a, s).

Definition raise {S A : Type} (e : exn) : M S A := fun s => (inl e, s).

Definition bind {S A B : Type} (c : M S A) (k : A -> M S B) : M S B :=
  fun s =>
    match c s with
    | (inl e, s') => (inl e, s')
    | (inr a, s') => k a s'
    end.

Notation "x <- c ;; k" := (bind c (fun x => k))
  (at level 61, c at next level, right associativity).
Notation "c ;;; k" := (bind c (fun _ => k))
  (at level 61, right associativity).

Fixpoint map_items {S : Type} (f : string -> value -> M S value) (d : kwargs)
  : M S kwargs :=
  match d with
  | [] => ret []
  | (k, v) :: rest =>
      v' <- f k v ;;
      rest' <- map_items f rest ;;
      ret ((k, v') :: rest')
  end.

(** ** The runtime *)
Record runtime := mk_runtime {
  (* hasattr(pm, s) / getattr(pm, s) *)
  pm_getattr : string -> option callable;
  (* pm.Bound(pm.Flat, lower=0) *)
  HalfFlat : callable;
  (* pm.Normal *)
  pm_Normal : callable;
  (* d(label, **kw) inside the model context: refused with an exception, or
     a variable of some class is declared *)
  rt_declare : callable -> string -> kwargs -> graph -> rt_exn + rv_class;
  (* pm.Deterministic(label, e) *)
  rt_deterministic : string -> expr -> graph -> option rt_exn;
  (* pm.sample(samples, start=, init=, n_init=, **kwargs) *)
  pm_sample : value -> option value -> string -> Z -> kwargs -> graph -> rt_exn + trace;
  (* arviz.from_pymc3(trace, model=model) *)
  from_pymc3 : trace -> graph -> rt_exn + idata;
  (* pm.variational.ADVI(start, **kwargs) *)
  ADVI : option value -> kwargs -> graph -> rt_exn + advi;
  (* model.unobserved_RVs, by name *)
  unobserved_RVs : graph -> list string;
  (* pm.util.is_transformed_name *)
  is_transformed_name : string -> bool;
  (* model.test_point *)
  test_point : graph -> list (string * ndarray);
  (* pm.find_MAP(start=, vars=) *)
  find_MAP : list (string * ndarray) -> list string -> graph
             -> rt_exn + list (string * ndarray);
  (* pm.find_hessian(point, vars=) *)
  find_hessian : list (string * ndarray) -> list string -> graph
                 -> rt_exn + list (list F);
  (* np.linalg.det *)
  det : list (list F) -> F;
  (* x == 0 on floats *)
  is_zero : F -> bool;
  (* np.linalg.inv *)
  inv : list (list F) -> rt_exn + list (list F);
  (* x ** 0.5 *)
  sqrt_half : F -> F;
  (* the float 0.0, and + and * on array elements *)
  zero : F;
  fadd : F -> F -> F;
  fmul : F -> F -> F;
  (* an element-wise Theano function, or a user-supplied link, on an array *)
  rt_apply : tensor_fun -> ndarray -> option ndarray
}.

Variable R : runtime.

(** ** [PyMC3BackEnd.dists] *)
Definition dists : list (string * callable) := [("HalfFlat", HalfFlat R)].

(** ** [_build_dist], lines 42-50: resolving the identifier *)
Definition not_found_msg (dist : string) : string :=
  ("The Distribution " ++ dist
   ++ " was not found in PyMC3 or the PyMC3BackEnd.")%string.

Definition resolve_dist (table : list (string * callable)) (dist : dist_id)
  : exn + callable :=
  match dist with
  | DName s =>
      match pm_getattr R s with
      | Some c => inr c
      | None =>
          match lookup s table with
          | Some c => inr c
          | None => inl (ValueError (not_found_msg s))
          end
      end
  | DObj c => inr c
  end.

Definition lift_result {S A : Type} (r : exn + A) : M S A :=
  fun s => (r, s).

(** ** Declaring variables in the model context *)
Definition declare (d : callable) (label : string) (kw : kwargs) : M graph rv :=
  fun g =>
    match rt_declare R d label kw g with
    | inl e => (inl (Propagated e), g)
    | inr c => (inr (mk_rv c label), g ++ [NDist label d kw c])
    end.

Definition Deterministic (label : string) (e : expr) : M graph rv :=
  fun g =>
    match rt_deterministic R label e g with
    | Some err => (inl (Propagated err), g)
    | None => (inr (mk_rv DeterministicRV label), g ++ [NDeterministic label e])
    end.

(** ** [_build_dist], lines 61-72 *)

(** [isinstance(kwargs["sigma"], pm.model.TransformedRV)] *)
Definition is_TransformedRV (v : value) : bool :=
  match v with
  | VRV (mk_rv TransformedRV _) => true
  | _ => false
  end.

(** The condition of lines 62-67, in the order Python's [and] evaluates it. *)
Definition noncentered_cond (noncentered : bool) (kw : kwargs) : bool :=
  noncentered
  && mem "sigma" kw
  && negb (mem "observed" kw)
  && match lookup "sigma" kw with
     | Some v => is_TransformedRV v
     | None => false
     end.

Definition offset_kwargs (shp : value) : kwargs :=
  [("mu", VInt 0); ("sigma", VInt 1); ("shape", shp)].

(** Lines 68-70.  [kwargs["shape"]] is read while the arguments of
    [pm.Normal] are evaluated, before anything is declared.  Under the
    condition of lines 62-67 [kwargs["sigma"]] is a variable, so the last
    two cases do not arise. *)
Definition noncentered_branch (label : string) (kw : kwargs) : M graph rv :=
  match lookup "sigma" kw with
  | Some (VRV old_sigma) =>
      match lookup "shape" kw with
      | None => raise (KeyError "shape")
      | Some shp =>
          _offset <- declare (pm_Normal R) (label ++ "_offset")%string
                       (offset_kwargs shp) ;;
          Deterministic label
            (EMul (EVar (rv_name _offset)) (EVar (rv_name old_sigma)))
      end
  | Some _ => raise (TypeError "unsupported operand type(s) for *")
  | None => raise (KeyError "sigma")
  end.

Definition construct (noncentered : bool) (label : string) (d : callable)
  (kw : kwargs) : M graph rv :=
  if noncentered_cond noncentered kw
  then noncentered_branch label kw
  else declare d label kw.

(** Binding [**kwargs] at a call [_build_dist(spec, label, dist, **kwargs)]:
    a key that names a positional parameter is a [TypeError], raised at the
    call site before the body runs. *)
Definition positional : list string := ["self"; "spec"; "label"; "dist"].

Definition bind_call (kw : kwargs) : exn + unit :=
  if existsb (fun p => mem p kw) positional
  then inl (TypeError "_build_dist() got multiple values for argument")
  else inr tt.

(** The body of [_build_dist] once the way to expand the arguments is
    given: resolve the identifier, expand, construct. *)
Definition build_dist_body (noncentered : bool) (label : string) (dist : dist_id)
  (expand : M graph kwargs) : M graph rv :=
  d <- lift_result (resolve_dist dists dist) ;;
  kw' <- expand ;;
  construct noncentered label d kw'.

(** [_expand_args], lines 53-57, with the recursive call
    [self._build_dist(spec, label, value.name, **value.args)] inlined. *)
Fixpoint _expand_args (noncentered : bool) (label key : string) (v : value)
  {struct v} : M graph value :=
  match v with
  | VPrior name args =>
      let label' := (label ++ "_" ++ key)%string in
      lift_result (bind_call args) ;;;
      r <- build_dist_body noncentered label' name
             (map_items (fun k x => _expand_args noncentered label' k x) args) ;;
      ret (VRV r)
  | _ => ret v
  end.

(** Line 59: the dict comprehension. *)
Definition expand_kwargs (noncentered : bool) (label : string) (kw : kwargs)
  : M graph kwargs :=
  map_items (fun k x => _expand_args noncentered label k x) kw.

(** [_build_dist], lines 40-72.  Of [spec] the body reads only
    [spec.noncentered]. *)
Definition _build_dist (noncentered : bool) (label : string) (dist : dist_id)
  (kw : kwargs) : M graph rv :=
  build_dist_body noncentered label dist (expand_kwargs noncentered label kw).

(** A call of [_build_dist] with the keywords given as [**kw]. *)
Definition call_build_dist (noncentered : bool) (label : string)
  (dist : dist_id) (kw : kwargs) : M graph rv :=
  lift_result (bind_call kw) ;;;
  _build_dist noncentered label dist kw.

(** ** NumPy / Theano array operations met by the linear predictor

    [None] stands for an operation the runtime refuses (or, for [np_dot],
    a rank combination [build] never produces). *)

(** [a.size]: the product of the shape. *)
Definition size_of (shp : list nat) : nat := fold_right Nat.mul 1 shp.

(** [xs[i0:i1]] on a sequence, with Python's clamping. *)
Definition slice {A : Type} (xs : list A) (i0 i1 : nat) : list A :=
  firstn (i1 - i0) (skipn i0 xs).

Fixpoint map2 {A B C : Type} (f : A -> B -> C) (xs : list A) (ys : list B)
  : list C :=
  match xs, ys with
  | x :: xs', y :: ys' => f x y :: map2 f xs' ys'
  | _, _ => []
  end.

Fixpoint all_indices (shp : list nat) : list (list nat) :=
  match shp with
  | [] => [[]]
  | d :: rest => flat_map (fun i => map (cons i) (all_indices rest)) (seq 0 d)
  end.

(** Broadcast shape of two shapes given innermost axis first. *)
Fixpoint broadcast_rev (a b : list nat) : option (list nat) :=
  match a, b with
  | [], _ => Some b
  | _, [] => Some a
  | x :: a', y :: b' =>
      match broadcast_rev a' b' with
      | None => None
      | Some r =>
          if Nat.eqb x y then Some (x :: r)
          else if Nat.eqb x 1 then Some (y :: r)
          else if Nat.eqb y 1 then Some (x :: r)
          else None
      end
  end.

Definition broadcast_shape (a b : list nat) : option (list nat) :=
  option_map (@rev nat) (broadcast_rev (rev a) (rev b)).

(** Position, in an array of shape [shp], of the element that the index
    [idx] of the broadcast result reads. *)
Definition flat_index (shp idx : list nat) : nat :=
  fold_left
    (fun acc di => acc * fst di + (if Nat.eqb (fst di) 1 then 0 else snd di))
    (combine shp (skipn (List.length idx - List.length shp) idx)) 0.

Definition shape_eqb (a b : list nat) : bool :=
  if list_eq_dec Nat.eq_dec a b then true else false.

(** An element-wise binary operation with broadcasting. *)
Definition broadcast (op : F -> F -> F) (a b : ndarray) : option ndarray :=
  if shape_eqb (shape a) (shape b)
  then Some (mk_ndarray (shape a) (map2 op (items a) (items b)))
  else
    match broadcast_shape (shape a) (shape b) with
    | None => None
    | Some shp =>
        Some (mk_ndarray shp
                (map (fun idx =>
                        op (nth (flat_index (shape a) idx) (items a) (zero R))
                           (nth (flat_index (shape b) idx) (items b) (zero R)))
                     (all_indices shp)))
    end.

(** One row of a matrix-vector product, accumulated left to right. *)
Definition dot_row (row v : list F) : F :=
  fold_left (fun acc xy => fadd R acc (fmul R (fst xy) (snd xy)))
            (combine row v) (zero R).

(** Row [i] of a row-major matrix with [k] columns. *)
Definition row_of (k : nat) (xs : list F) (i : nat) : list F :=
  firstn k (skipn (i * k) xs).

(** [dot(a, b)] for a matrix [a] and a vector [b]. *)
Definition np_dot (a b : ndarray) : option ndarray :=
  match shape a, shape b with
  | [n; k], [k'] =>
      if Nat.eqb k k'
      then Some (mk_ndarray [n]
                   (map (fun i => dot_row (row_of k (items a) i) (items b))
                        (seq 0 n)))
      else None
  | _, _ => None
  end.

(** An integer index into an axis of length [g]; negative indices count
    from the end. *)
Definition norm_index (g : nat) (z : Z) : option nat :=
  if (0 <=? z)%Z && (z <? Z.of_nat g)%Z then Some (Z.to_nat z)
  else if (- Z.of_nat g <=? z)%Z && (z <? 0)%Z then Some (Z.to_nat (z + Z.of_nat g))
  else None.

Fixpoint take_rows (g rs : nat) (xs : list F) (idx : list Z)
  : option (list F) :=
  match idx with
  | [] => Some []
  | z :: rest =>
      match norm_index g z, take_rows g rs xs rest with
      | Some i, Some tl => Some (firstn rs (skipn (i * rs) xs) ++ tl)
      | _, _ => None
      end
  end.

(** [a[idx]] for an integer vector [idx]: selection along the first axis. *)
Definition np_take (a : ndarray) (idx : list Z) : option ndarray :=
  match shape a with
  | [] => None
  | g :: rest =>
      match take_rows g (size_of rest) (items a) idx with
      | Some xs => Some (mk_ndarray (List.length idx :: rest) xs)
      | None => None
      end
  end.

(** [a[:, None]]: a new axis of length one after the first. *)
Definition np_column (a : ndarray) : option ndarray :=
  match shape a with
  | [] => None
  | n :: rest => Some (mk_ndarray (n :: 1 :: rest) (items a))
  end.

Definition lift2 {A B C : Type} (f : A -> B -> option C)
  (a : option A) (b : option B) : option C :=
  match a, b with
  | Some x, Some y => f x y
  | _, _ => None
  end.

(** The value of an expression once every variable has one. *)
Fixpoint eval (env : string -> option ndarray) (e : expr) : option ndarray :=
  match e with
  | EConst a => Some a
  | EVar name => env name
  | EAdd a b => lift2 (broadcast (fadd R)) (eval env a) (eval env b)
  | EMul a b => lift2 (broadcast (fmul R)) (eval env a) (eval env b)
  | EDot a b => lift2 np_dot (eval env a) (eval env b)
  | ETake a idx =>
      match eval env a with
      | Some x => np_take x idx
      | None => None
      end
  | EColumn a =>
      match eval env a with
      | Some x => np_column x
      | None => None
      end
  | EApply f a =>
      match eval env a with
      | Some x => rt_apply R f x
      | None => None
      end
  end.

(** ** The abstract model specification consumed by [build] *)
Record term := mk_term {
  t_name : string;
  t_data : ndarray;
  t_prior_name : dist_id;
  t_prior_args : kwargs;
  t_random : bool;
  t_group_index : list Z;
  t_predictor : ndarray
}.

Record response := mk_response { y_name : string; y_data : ndarray }.

Inductive link_spec :=
| LinkName (s : string)
| LinkCallable (c : callable).

Record family := mk_family {
  parent : string;
  link : link_spec;
  f_prior_name : dist_id;
  f_prior_args : kwargs
}.

(** [terms] lists [spec.terms.values()] in dict order. *)
Record model_spec := mk_spec {
  noncentered : bool;
  terms : list term;
  y : response;
  spec_family : family
}.

(** ** The back-end object *)
Record backend := mk_backend {
  model : graph;
  mu : option expr;
  par_groups : kwargs;
  spec : option model_spec;
  trace_ : option trace;
  advi_params : option advi
}.

(** ** [reset], lines 34-38 *)
Definition reset : M backend unit :=
  fun self =>
    (inr tt,
     mk_backend [] None [] (spec self) (trace_ self) (advi_params self)).

(** ** [__init__], lines 25-32 *)
Definition __init__ : backend :=
  mk_backend [] None [] None None None.

(** Running a computation on the model graph with [self.model] as the
    current model context. *)
Definition in_model {A : Type} (c : M graph A) : M backend A :=
  fun self =>
    match c (model self) with
    | (r, g) =>
        (r, mk_backend g (mu self) (par_groups self) (spec self)
              (trace_ self) (advi_params self))
    end.

Definition set_mu (e : expr) : M backend unit :=
  fun self =>
    (inr tt,
     mk_backend (model self) (Some e) (par_groups self) (spec self)
       (trace_ self) (advi_params self)).

Definition get_mu : M backend expr :=
  fun self =>
    match mu self with
    | Some e => (inr e, self)
    | None => (inl (TypeError "unsupported operand type(s): 'NoneType'"), self)
    end.

(** ** [PyMC3BackEnd.links], lines 15-21 *)
Definition links : list (string * (expr -> expr)) :=
  [ ("identity", fun x => x);
    ("logit", EApply Sigmoid);
    ("inverse", EApply TInv);
    ("inverse_squared", fun x => EApply TInv (EApply TSqrt x));
    ("log", EApply TExp) ].

(** ** [build], lines 84-115 *)

(** [t.data.shape[1]] *)
Definition n_cols_of (a : ndarray) : exn + nat :=
  match nth_error (shape a) 1 with
  | Some k => inr k
  | None => inl (IndexError "tuple index out of range")
  end.

(** The keywords of the call [_build_dist(..., shape=n_cols, **dist_args)]. *)
Definition term_kwargs (n_cols : nat) (dist_args : kwargs) : exn + kwargs :=
  if mem "shape" dist_args
  then inl (TypeError "got multiple values for keyword argument 'shape'")
  else inr (("shape", VInt (Z.of_nat n_cols)) :: dist_args).

(** What lines 100-103 add to [self.mu]. *)
Definition contribution (t : term) (coef : rv) : expr :=
  if t_random t
  then EMul (EColumn (ETake (EVar (rv_name coef)) (t_group_index t)))
            (EConst (t_predictor t))
  else EColumn (EDot (EConst (t_data t)) (EVar (rv_name coef))).

(** The loop body, lines 91-103. *)
Definition build_term (sp : model_spec) (t : term) : M backend unit :=
  n_cols <- lift_result (n_cols_of (t_data t)) ;;
  kw <- lift_result (term_kwargs n_cols (t_prior_args t)) ;;
  coef <- in_model (call_build_dist (noncentered sp) (t_name t) (t_prior_name t) kw) ;;
  m <- get_mu ;;
  set_mu (EAdd m (contribution t coef)).

Fixpoint for_each {S A : Type} (f : A -> M S unit) (xs : list A) : M S unit :=
  match xs with
  | [] => ret tt
  | x :: rest => f x ;;; for_each f rest
  end.

Definition resolve_link (l : link_spec) : exn + (expr -> expr) :=
  match l with
  | LinkName s =>
      match lookup s links with
      | Some f => inr f
      | None => inl (KeyError s)
      end
  | LinkCallable c => inr (EApply (TCall c))
  end.

(** The response prior's argument dict after lines 112-113. *)
Definition response_args (sp : model_spec) (link_f : expr -> expr) (m : expr)
  : kwargs :=
  dict_set "observed" (VArray (y_data (y sp)))
    (dict_set (parent (spec_family sp)) (VExpr (link_f m))
       (f_prior_args (spec_family sp))).

(** The specification object as lines 112-113 leave it: the assignments
    write into the family's own argument dict. *)
Definition with_response_args (sp : model_spec) (args : kwargs) : model_spec :=
  mk_spec (noncentered sp) (terms sp) (y sp)
    (mk_family (parent (spec_family sp)) (link (spec_family sp))
       (f_prior_name (spec_family sp)) args).

Definition set_spec (sp : model_spec) : M backend unit :=
  fun self =>
    (inr tt,
     mk_backend (model self) (mu self) (par_groups self) (Some sp)
       (trace_ self) (advi_params self)).

Definition build (sp : model_spec) (do_reset : bool) : M backend unit :=
  (if do_reset then reset else ret tt) ;;;
  set_mu (EConst (mk_ndarray [] [zero R])) ;;;
  for_each (build_term sp) (terms sp) ;;;
  link_f <- lift_result (resolve_link (link (spec_family sp))) ;;
  m <- get_mu ;;
  let args := response_args sp link_f m in
  in_model (call_build_dist (noncentered sp) (y_name (y sp))
              (f_prior_name (spec_family sp)) args) ;;;
  set_spec (with_response_args sp args).

(** ** [_laplace], lines 163-194 *)

(** An entry of [modes]: [v.item()] when [v.size == 1], else [v]. *)
Inductive mode :=
| MItem (x : F)
| MArray (a : ndarray).

Definition mode_of (v : ndarray) : mode :=
  if Nat.eqb (size_of (shape v)) 1 then MItem (hd (zero R) (items v)) else MArray v.

(** [np.atleast_1d(mode).shape] *)
Definition mode_shape (m : mode) : list nat :=
  match m with
  | MItem _ => [1]
  | MArray a => match shape a with [] => [1] | s => s end
  end.

(** [np.reshape(xs, shp)] of a flat sequence. *)
Definition np_reshape (xs : list F) (shp : list nat) : exn + ndarray :=
  if Nat.eqb (List.length xs) (size_of shp)
  then inr (mk_ndarray shp xs)
  else inl (ValueError "cannot reshape array into the requested shape").

(** Lines 188-193: the walk over [shapes], from [idx0]. *)
Fixpoint reshape_walk (stds : list F) (idx0 : nat) (shapes : list (list nat))
  : exn + list ndarray :=
  match shapes with
  | [] => inr []
  | shp :: rest =>
      let idx1 := idx0 + list_sum shp in
      match np_reshape (slice stds idx0 idx1) shp with
      | inl e => inl e
      | inr a =>
          match reshape_walk stds idx1 rest with
          | inl e => inl e
          | inr tl => inr (a :: tl)
          end
      end
  end.

(** [np.diag] of a matrix given by rows. *)
Fixpoint diag_from (i : nat) (rows : list (list F)) : list F :=
  match rows with
  | [] => []
  | r :: rest =>
      match nth_error r i with
      | Some x => x :: diag_from (S i) rest
      | None => []
      end
  end.

Definition singular_msg : string := "Singular matrix. Use mcmc or advi method".

Definition laplace_result := list (string * (mode * ndarray)).

Definition _laplace (m : graph) : exn + laplace_result :=
  let varis :=
    filter (fun v => negb (is_transformed_name R v)) (unobserved_RVs R m) in
  match find_MAP R (test_point R m) varis m with
  | inl e => inl (Propagated e)
  | inr maps =>
      match find_hessian R maps varis m with
      | inl e => inl (Propagated e)
      | inr hessian =>
          if is_zero R (det R hessian)
          then inl (LinAlgError singular_msg)
          else
            match inv R hessian with
            | inl e => inl (Propagated e)
            | inr hinv =>
                let stds := diag_from 0 (map (map (sqrt_half R)) hinv) in
                let maps' :=
                  map snd
                    (filter (fun kv => negb (is_transformed_name R (fst kv)))
                       maps) in
                let modes := map mode_of maps' in
                let names := varis in
                let shapes := map mode_shape modes in
                match reshape_walk stds 0 shapes with
                | inl e => inl e
                | inr stds_reshaped =>
                    inr (dict_of (combine names (combine modes stds_reshaped)))
                end
            end
      end
  end.

(** ** [run], lines 143-160 *)
Inductive run_result :=
| RInferenceData (d : idata)
| RAdvi (a : advi)
| RLaplace (d : laplace_result)
| RNone.

Definition set_trace (t : trace) (self : backend) : backend :=
  mk_backend (model self) (mu self) (par_groups self) (spec self)
    (Some t) (advi_params self).

Definition set_advi (a : advi) (self : backend) : backend :=
  mk_backend (model self) (mu self) (par_groups self) (spec self)
    (trace_ self) (Some a).

Definition run (start : option value) (method : string) (init : string)
  (n_init : Z) (kw : kwargs) : M backend run_result :=
  fun self =>
    let m := model self in
    if String.eqb (lower method) "mcmc" then
      let samples :=
        match lookup "samples" kw with Some v => v | None => VInt 1000 end in
      match pm_sample R samples start init n_init (dict_remove "samples" kw) m with
      | inl e => (inl (Propagated e), self)
      | inr tr =>
          match from_pymc3 R tr m with
          | inl e => (inl (Propagated e), set_trace tr self)
          | inr d => (inr (RInferenceData d), set_trace tr self)
          end
      end
    else if String.eqb (lower method) "advi" then
      match ADVI R start kw m with
      | inl e => (inl (Propagated e), self)
      | inr a => (inr (RAdvi a), set_advi a self)
      end
    else if String.eqb (lower method) "laplace" then
      match _laplace m with
      | inl e => (inl e, self)
      | inr d => (inr (RLaplace d), self)
      end
    else (inr RNone, self).

(** ** Predicates used to state what the builder does *)

(** [g'] is [g] with further variables declared after it. *)
Definition extends (g g' : graph) : Prop := exists ext, g' = g ++ ext.

(** What line 59 does to one item [kv] of the keyword dict, in a
    comprehension that starts on graph [g0] and ends on [g1]: the key is
    kept; a nested prior is built by a call of [_build_dist] under the label
    [label_key], somewhere between [g0] and [g1], which declares a variable
    of that name and whose result replaces the value; any other value is
    kept. *)
Definition expanded_item (noncentered : bool) (label : string) (g0 g1 : graph)
  (kv kv' : string * value) : Prop :=
  fst kv' = fst kv /\
  match snd kv with
  | VPrior name args =>
      exists (ga gb : graph) (r : rv),
        extends g0 ga /\ extends gb g1 /\
        call_build_dist noncentered (label ++ "_" ++ fst kv)%string name args ga
          = (inr r, gb) /\
        rv_name r = (label ++ "_" ++ fst kv)%string /\
        (exists ext n, gb = ga ++ ext /\ In n ext /\ node_name n = rv_name r) /\
        snd kv' = VRV r
  | v => snd kv' = v
  end.

(** The keywords a variable was declared with. *)
Definition node_kwargs (n : node) : kwargs :=
  match n with
  | NDist _ _ kw _ => kw
  | NDeterministic _ _ => []
  end.

(** The linear predictor after the loop of lines 90-103, given the
    coefficient handle each term got. *)
Definition predictor_sum (m0 : expr) (tcs : list (term * rv)) : expr :=
  fold_left (fun m tc => EAdd m (contribution (fst tc) (snd tc))) tcs m0.

(** Term [t] got the coefficient handle [coef] from a call of the builder
    with [shape = t.data.shape[1]] ahead of the prior's own arguments, made
    somewhere between the graphs [g0] and [g1]. *)
Definition term_built (sp : model_spec) (g0 g1 : graph) (t : term) (coef : rv)
  : Prop :=
  exists (k : nat) (ga gb : graph),
    n_cols_of (t_data t) = inr k /\
    extends g0 ga /\ extends gb g1 /\
    _build_dist (noncentered sp) (t_name t) (t_prior_name t)
      (("shape", VInt (Z.of_nat k)) :: t_prior_args t) ga = (inr coef, gb).

(** The reshaping walk as the specification words it: every slice starts
    where the previous one ended and has as many elements as the variable
    ([size_of shp], the product of the shape).  To be compared with
    [reshape_walk], which advances by [sum(shape)]. *)
Fixpoint walk_by_size (stds : list F) (idx0 : nat) (shapes : list (list nat))
  : exn + list ndarray :=
  match shapes with
  | [] => inr []
  | shp :: rest =>
      let idx1 := idx0 + size_of shp in
      match np_reshape (slice stds idx0 idx1) shp with
      | inl e => inl e
      | inr a =>
          match walk_by_size stds idx1 rest with
          | inl e => inl e
          | inr tl => inr (a :: tl)
          end
      end
  end.

(** ** Further predicates and measures *)

(** The number of nested priors in a value, at any depth. *)
Fixpoint priors_in_value (v : value) : nat :=
  match v with
  | VPrior _ args =>
      S (list_sum
           (map (fun kv => match kv with (_, x) => priors_in_value x end) args))
  | _ => 0
  end.

Definition priors_in (kw : kwargs) : nat :=
  list_sum (map (fun kv => match kv with (_, x) => priors_in_value x end) kw).

Definition is_dist_node (n : node) : bool :=
  match n with
  | NDist _ _ _ _ => true
  | NDeterministic _ _ => false
  end.

(** The exceptions the builder can end in: its own "not found", the
    missing shape of the non-centered branch, a keyword clash at a
    recursive call, or whatever the runtime raised. *)
Definition builder_error (e : exn) : Prop :=
  (exists s, e = ValueError (not_found_msg s)) \/
  e = KeyError "shape" \/
  e = TypeError "_build_dist() got multiple values for argument" \/
  exists r, e = Propagated r.

(** Two back-ends with the same model graph, predictor and parameter
    groups. *)
Definition same_core (s1 s2 : backend) : Prop :=
  model s1 = model s2 /\ mu s1 = mu s2 /\ par_groups s1 = par_groups s2.

(** The keys of [PyMC3BackEnd.links]. *)
Definition link_names : list string := map fst links.

(** The exceptions [_laplace] can end in. *)
Definition laplace_error (e : exn) : Prop :=
  e = LinAlgError singular_msg \/
  e = ValueError "cannot reshape array into the requested shape" \/
  exists r, e = Propagated r.

(** A computation whose every run relates the states before and after by
    [O] and ends, if in an exception, in one that satisfies [E]. *)
Definition meets {S A : Type} (O : S -> S -> Prop) (E : exn -> Prop)
  (c : M S A) : Prop :=
  forall s res s', c s = (res, s') -> O s s' /\ forall e, res = inl e -> E e.

(** [g'] is [g] followed by variables whose names all start with [label]. *)
Definition declares_under (label : string) (g g' : graph) : Prop :=
  exists ext,
    g' = g ++ ext /\
    Forall (fun n => exists suffix, node_name n = (label ++ suffix)%string) ext.

(** A computation that cannot tell apart two back-ends with the same
    graph, predictor and parameter groups. *)
Definition respects_core {A : Type} (c : M backend A) : Prop :=
  forall s1 s2,
    same_core s1 s2 ->
    fst (c s1) = fst (c s2) /\ same_core (snd (c s1)) (snd (c s2)).

(** What a term must offer for the loop body to get as far as the
    builder: no ["shape"] among the prior's arguments, and data with a
    second axis. *)
Definition term_admissible (t : term) : Prop :=
  mem "shape" (t_prior_args t) = false /\
  exists k, nth_error (shape (t_data t)) 1 = Some k.

(** How the coefficient [coef] of a term labelled [label], resolved to the
    distribution [d] and called with [shape = k], is declared from the
    expanded keywords [kw']; [own] is what the last step of the builder
    appends to the graph.  Branch not taken: the one variable [label], by
    a call of [d] on [kw'].  Branch taken: the standard-normal offset
    [label_offset] with [shape = k], then the deterministic variable
    [label], the product of the offset and sigma. *)
Definition coefficient_declared (noncentered : bool) (label : string)
  (d : callable) (k : nat) (kw' : kwargs) (coef : rv) (own : graph) : Prop :=
  (noncentered_cond noncentered kw' = false /\
   exists cls,
     coef = mk_rv cls label /\ own = [NDist label d kw' cls])
  \/
  (noncentered_cond noncentered kw' = true /\
   exists sname cls,
     lookup "sigma" kw' = Some (VRV (mk_rv TransformedRV sname)) /\
     coef = mk_rv DeterministicRV label /\
     own = [NDist (label ++ "_offset")%string (pm_Normal R)
              (offset_kwargs (VInt (Z.of_nat k))) cls;
            NDeterministic label
              (EMul (EVar (label ++ "_offset")%string) (EVar sname))]).

(** The runtime [R] with another inverse routine. *)
Definition with_inv (inv' : list (list F) -> rt_exn + list (list F)) : runtime :=
  mk_runtime (pm_getattr R) (HalfFlat R) (pm_Normal R) (rt_declare R)
    (rt_deterministic R) (pm_sample R) (from_pymc3 R) (ADVI R)
    (unobserved_RVs R) (is_transformed_name R) (test_point R) (find_MAP R)
    (find_hessian R) (det R) (is_zero R) inv' (sqrt_half R) (zero R)
    (fadd R) (fmul R) (rt_apply R).

End Backend.

(** ** A small concrete runtime

    Integers for array elements, names for the objects of the [pm]
    namespace.  A variable is refused when its name is taken; positive
    distributions yield transformed variables, a call with [observed]
    yields an observed one.  The MAP point and the Hessian are given, so
    that [_laplace] can be run on them. *)

Definition demo_names : list string :=
  ["Normal"; "Cauchy"; "Flat"; "Bernoulli"; "HalfCauchy"; "HalfNormal"].

Definition demo_positive : list string :=
  ["HalfCauchy"; "HalfNormal"; "HalfFlat"].

Definition demo_getattr (s : string) : option string :=
  if existsb (String.eqb s) demo_names then Some s else None.

Definition declared (name : string) (g : @graph Z string) : bool :=
  existsb (fun n => String.eqb (node_name n) name) g.

Definition demo_declare (d label : string) (kw : @kwargs Z string)
  (g : @graph Z string) : string + rv_class :=
  if declared label g then inl "Variable name already exists."
  else inr (if mem "observed" kw then ObservedRV
            else if existsb (String.eqb d) demo_positive then TransformedRV
            else FreeRV).

Definition demo_deterministic (label : string) (e : @expr Z string)
  (g : @graph Z string) : option string :=
  if declared label g then Some "Variable name already exists." else None.

Fixpoint is_identity_from (i : nat) (rows : list (list Z)) : bool :=
  match rows with
  | [] => true
  | r :: rest =>
      forallb (fun jx => Z.eqb (snd jx) (if Nat.eqb (fst jx) i then 1 else 0))
              (combine (seq 0 (List.length r)) r)
      && is_identity_from (S i) rest
  end.

(** Determinant and inverse on the matrices the examples use: the product
    of the diagonal for a diagonal matrix, and the identity as its own
    inverse. *)
Definition demo_det (m : list (list Z)) : Z :=
  fold_right Z.mul 1%Z (diag_from 0 m).

Definition demo_inv (m : list (list Z)) : string + list (list Z) :=
  if is_identity_from 0 m then inr m else inl "Singular matrix".

Definition demo_runtime (point : list (string * @ndarray Z))
  (hessian : list (list Z)) : @runtime Z string string nat nat nat :=
  mk_runtime
    demo_getattr
    "HalfFlat"
    "Normal"
    demo_declare
    demo_deterministic
    (fun _ _ _ _ _ _ => inr 0)
    (fun t _ => inr t)
    (fun _ _ _ => inr 0)
    (fun _ => map fst point)
    (fun _ => false)
    (fun _ => point)
    (fun _ _ _ => inr point)
    (fun _ _ _ => inr hessian)
    demo_det
    (Z.eqb 0)
    demo_inv
    Z.sqrt
    0%Z
    Z.add
    Z.mul
    (fun _ a => Some a).

Definition demo : @runtime Z string string nat nat nat := demo_runtime [] [].

Fixpoint identity_rows (n i : nat) : list (list Z) :=
  match n with
  | O => []
  | S n' =>
      map (fun j => if Nat.eqb j i then 1%Z else 0%Z) (seq 0 (i + n))
      :: identity_rows n' (S i)
  end.

(** A prior two levels deep: [Prior("HalfNormal", sigma=Prior("HalfCauchy",
    beta=1))]. *)
Definition demo_halfcauchy : @value Z string :=
  VPrior (DName "HalfCauchy") [("beta", VInt 1)].

Definition demo_nested_sigma : @value Z string :=
  VPrior (DName "HalfNormal") [("sigma", demo_halfcauchy)].

(** A model with one fixed-effect term and one random-effect term whose
    standard deviation has a hyperprior. *)
Definition demo_fixed : @term Z string :=
  mk_term "x" (mk_ndarray [3; 2] [1; 2; 3; 4; 5; 6]%Z)
    (DName "Normal") [("mu", VInt 0); ("sigma", VInt 1)]
    false [] (mk_ndarray [0] []).

Definition demo_random : @term Z string :=
  mk_term "1|g" (mk_ndarray [3; 2] [1; 0; 0; 1; 1; 0]%Z)
    (DName "Normal")
    [("mu", VInt 0); ("sigma", VPrior (DName "HalfCauchy") [("beta", VInt 5)])]
    true [0; 1; 0]%Z (mk_ndarray [3; 1] [7; 8; 9]%Z).

Definition demo_spec : @model_spec Z string :=
  mk_spec true [demo_fixed; demo_random]
    (mk_response "y" (mk_ndarray [3] [10; 20; 30]%Z))
    (mk_family "mu" (LinkName "identity") (DName "Normal")
       [("sigma", VPrior (DName "HalfCauchy") [("beta", VInt 1)])]).

Definition demo_self : @backend Z string nat nat := __init__.

Definition demo_built : @backend Z string nat nat :=
  snd (build demo demo_spec true demo_self).

(** Values for the two coefficient vectors. *)
Definition demo_env (name : string) : option (@ndarray Z) :=
  if String.eqb name "x" then Some (mk_ndarray [2] [10; 100]%Z)
  else if String.eqb name "1|g" then Some (mk_ndarray [2] [3; 4]%Z)
  else None.

(** A MAP point with one matrix-valued variable, and one with a vector and
    a scalar. *)
Definition demo_matrix_point : list (string * @ndarray Z) :=
  [("x", mk_ndarray [2; 3] [1; 2; 3; 4; 5; 6]%Z)].

Definition demo_vector_point : list (string * @ndarray Z) :=
  [("x", mk_ndarray [3] [1; 2; 3]%Z); ("s", mk_ndarray [] [7]%Z)].

(** A Hessian with a zero on its diagonal. *)
Definition demo_singular_hessian : list (list Z) :=
  [[1; 0; 0; 0]; [0; 1; 0; 0]; [0; 0; 0; 0]; [0; 0; 0; 1]]%Z.

(** A coefficient prior with hyperpriors two levels deep, as [build] hands
    it to the builder for a term with two columns. *)
Definition demo_kwargs : @kwargs Z string :=
  [("shape", VInt 2); ("mu", VInt 0); ("sigma", demo_nested_sigma)].

Definition demo_graph : @graph Z string :=
  snd (_build_dist demo false "b" (DName "Normal") demo_kwargs []).

(** The same model with a link name outside the registry. *)
Definition demo_spec_probit : @model_spec Z string :=
  mk_spec true [demo_fixed; demo_random]
    (mk_response "y" (mk_ndarray [3] [10; 20; 30]%Z))
    (mk_family "mu" (LinkName "probit") (DName "Normal")
       [("sigma", VPrior (DName "HalfCauchy") [("beta", VInt 1)])]).

(** Keywords of a coefficient prior with one hyperprior. *)
Definition demo_sigma_kwargs : @kwargs Z string :=
  [("shape", VInt 2); ("mu", VInt 0); ("sigma", demo_halfcauchy)].

(** A fixed-effect term whose prior has a hyperprior on sigma, and a model
    with it beside the plain fixed-effect term, in non-centered mode. *)
Definition demo_fixed_hier : @term Z string :=
  mk_term "z" (mk_ndarray [3; 2] [1; 0; 0; 1; 1; 1]%Z)
    (DName "Cauchy")
    [("alpha", VInt 0); ("sigma", VPrior (DName "HalfCauchy") [("beta", VInt 5)])]
    false [] (mk_ndarray [0] []).

Definition demo_hier_spec : @model_spec Z string :=
  mk_spec true [demo_fixed; demo_fixed_hier]
    (mk_response "y" (mk_ndarray [3] [10; 20; 30]%Z))
    (mk_family "mu" (LinkName "identity") (DName "Normal")
       [("sigma", VPrior (DName "HalfCauchy") [("beta", VInt 1)])]).

Definition demo_hier_built : @backend Z string nat nat :=
  snd (build demo demo_hier_spec true demo_self).

(** * Properties *)

Section Properties.

Context {F callable rt_exn trace idata advi : Type}.
Variable R : @runtime F callable rt_exn trace idata advi.

Local Abbreviation Graph := (@graph F callable).
Local Abbreviation Kwargs := (@kwargs F callable).
Local Abbreviation Value := (@value F callable).
Local Abbreviation Exn := (@exn rt_exn).

(** ** Dictionaries *)

Lemma mem_lookup {A : Type} (k : string) (d : list (string * A)) :
  mem k d = true <-> exists v, lookup k d = Some v.
Proof.
  unfold mem. destruct (lookup k d) as [v|].
  - split; [intros _; now exists v | reflexivity].
  - split; [discriminate | intros [v Hv]; discriminate].
Qed.

Lemma lookup_keys {A B : Type} (k : string) (d : list (string * A))
  (d' : list (string * B)) :
  keys d' = keys d -> mem k d' = mem k d.
Proof.
  unfold mem, keys. revert d'.
  induction d as [|[k0 v0] d IH]; intros [|[k1 v1] d'] Hk; simpl in *;
    try discriminate; try reflexivity.
  injection Hk as Hk0 Hk. subst k1.
  destruct (String.eqb k k0); [reflexivity | now apply IH].
Qed.

(** ** The graph only grows *)

Lemma extends_refl (g : Graph) : extends g g.
Proof. exists []. now rewrite app_nil_r. Qed.

Lemma extends_trans (g1 g2 g3 : Graph) :
  extends g1 g2 -> extends g2 g3 -> extends g1 g3.
Proof.
  intros [e1 ->] [e2 ->]. exists (e1 ++ e2). now rewrite app_assoc.
Qed.

Lemma extends_app (g ext : Graph) : extends g (g ++ ext).
Proof. now exists ext. Qed.

Lemma declare_cases (d : callable) (label : string) (kw : Kwargs) (g : Graph)
  (res : Exn + rv) (g' : Graph) :
  declare R d label kw g = (res, g') ->
  (exists e, rt_declare R d label kw g = inl e /\ res = inl (Propagated e) /\ g' = g)
  \/ (exists c, rt_declare R d label kw g = inr c /\ res = inr (mk_rv c label)
                /\ g' = g ++ [NDist label d kw c]).
Proof.
  unfold declare. destruct (rt_declare R d label kw g) as [e|c]; intros H;
    injection H as <- <-; [left | right]; eauto.
Qed.

Lemma Deterministic_cases (label : string) (e : expr) (g : Graph)
  (res : Exn + rv) (g' : Graph) :
  Deterministic R label e g = (res, g') ->
  (exists err, rt_deterministic R label e g = Some err
               /\ res = inl (Propagated err) /\ g' = g)
  \/ (rt_deterministic R label e g = None /\ res = inr (mk_rv DeterministicRV label)
      /\ g' = g ++ [NDeterministic label e]).
Proof.
  unfold Deterministic. destruct (rt_deterministic R label e g) as [err|];
    intros H; injection H as <- <-; [left | right]; eauto.
Qed.

(** ** The last step of [_build_dist], case by case *)

Lemma noncentered_cond_iff (nc : bool) (kw : Kwargs) :
  noncentered_cond nc kw = true <->
  nc = true /\ mem "sigma" kw = true /\ mem "observed" kw = false
  /\ exists name, lookup "sigma" kw = Some (VRV (mk_rv TransformedRV name)).
Proof.
  unfold noncentered_cond. rewrite !andb_true_iff, negb_true_iff.
  split.
  - intros [[[H1 H2] H3] H4]. repeat split; try assumption.
    destruct (lookup "sigma" kw) as [v|]; [|discriminate].
    destruct v as [| | | |[[] name]|]; try discriminate. now exists name.
  - intros (H1 & H2 & H3 & name & H4). rewrite H4. now repeat split.
Qed.

(** Not taken: the resolved distribution is called with the expanded
    keywords. *)
Lemma construct_direct (nc : bool) (label : string) (d : callable)
  (kw : Kwargs) :
  noncentered_cond nc kw = false ->
  construct R nc label d kw = declare R d label kw.
Proof. unfold construct. now intros ->. Qed.

(** Taken, with a shape: the offset, then the deterministic product. *)
Lemma construct_noncentered (nc : bool) (label : string) (d : callable)
  (kw : Kwargs) (shp : Value) (g : Graph) :
  noncentered_cond nc kw = true ->
  lookup "shape" kw = Some shp ->
  exists sname,
    lookup "sigma" kw = Some (VRV (mk_rv TransformedRV sname)) /\
    construct R nc label d kw g =
      bind (declare R (pm_Normal R) (label ++ "_offset")%string (offset_kwargs shp))
           (fun _ => Deterministic R label
                       (EMul (EVar (label ++ "_offset")%string) (EVar sname))) g.
Proof.
  intros Hc Hs. pose proof Hc as Hc'.
  apply noncentered_cond_iff in Hc' as (_ & _ & _ & sname & Hsig).
  exists sname. split; [assumption|].
  unfold construct, noncentered_branch. rewrite Hc, Hsig, Hs. simpl.
  unfold bind, declare.
  destruct (rt_declare R (pm_Normal R) _ (offset_kwargs shp) g); reflexivity.
Qed.

(** Taken, without a shape: [kwargs["shape"]] raises before anything is
    declared. *)
Lemma construct_missing_shape (nc : bool) (label : string) (d : callable)
  (kw : Kwargs) (g : Graph) :
  noncentered_cond nc kw = true ->
  lookup "shape" kw = None ->
  construct R nc label d kw g = (inl (KeyError "shape"), g).
Proof.
  intros Hc Hs. pose proof Hc as Hc'.
  apply noncentered_cond_iff in Hc' as (_ & _ & _ & sname & Hsig).
  unfold construct, noncentered_branch. now rewrite Hc, Hsig, Hs.
Qed.

(** A successful last step declares the variable [label] last, after at
    most an offset. *)
Lemma construct_ok (nc : bool) (label : string) (d : callable) (kw : Kwargs)
  (g : Graph) (r : rv) (g' : Graph) :
  construct R nc label d kw g = (inr r, g') ->
  rv_name r = label /\
  ((noncentered_cond nc kw = false /\
    exists c, r = mk_rv c label /\ g' = g ++ [NDist label d kw c])
   \/
   (noncentered_cond nc kw = true /\
    exists shp sname c,
      lookup "shape" kw = Some shp /\
      lookup "sigma" kw = Some (VRV (mk_rv TransformedRV sname)) /\
      r = mk_rv DeterministicRV label /\
      g' = g ++ [NDist (label ++ "_offset")%string (pm_Normal R)
                   (offset_kwargs shp) c;
                 NDeterministic label
                   (EMul (EVar (label ++ "_offset")%string) (EVar sname))])).
Proof.
  intros H. destruct (noncentered_cond nc kw) eqn:Hc.
  - destruct (lookup "shape" kw) as [shp|] eqn:Hs.
    + destruct (construct_noncentered nc label d kw shp g Hc Hs)
        as (sname & Hsig & Heq).
      rewrite Heq in H. unfold bind in H.
      destruct (declare R (pm_Normal R) _ (offset_kwargs shp) g)
        as [[e|off] g1] eqn:Hd; [discriminate|].
      apply declare_cases in Hd as [(e & _ & Hres & _)|(c & _ & Hres & Hg1)];
        [discriminate|].
      apply Deterministic_cases in H as [(err & _ & Hr & _)|(_ & Hr & Hg')];
        [discriminate|].
      injection Hr as ->. split; [reflexivity|]. right. split; [reflexivity|].
      exists shp, sname, c. subst g1 g'. rewrite <- app_assoc. now repeat split.
    + rewrite (construct_missing_shape nc label d kw g Hc Hs) in H. discriminate.
  - rewrite (construct_direct nc label d kw Hc) in H.
    apply declare_cases in H as [(e & _ & Hres & _)|(c & _ & Hres & Hg')];
      [discriminate|].
    injection Hres as ->. split; [reflexivity|]. left. split; [reflexivity|].
    now exists c.
Qed.

Lemma construct_extends (nc : bool) (label : string) (d : callable)
  (kw : Kwargs) (g : Graph) (res : Exn + rv) (g' : Graph) :
  construct R nc label d kw g = (res, g') -> extends g g'.
Proof.
  unfold construct, noncentered_branch. intros H.
  destruct (noncentered_cond nc kw).
  - destruct (lookup "sigma" kw) as [[| | | |old|]|];
      try (injection H as _ <-; apply extends_refl).
    destruct (lookup "shape" kw) as [shp|];
      [|injection H as _ <-; apply extends_refl].
    unfold bind in H.
    destruct (declare R (pm_Normal R) _ (offset_kwargs shp) g)
      as [[e|off] g1] eqn:Hd.
    + injection H as _ <-.
      apply declare_cases in Hd as [(? & _ & _ & ->)|(? & _ & _ & ->)];
        [apply extends_refl | apply extends_app].
    + apply extends_trans with g1.
      * apply declare_cases in Hd as [(? & _ & _ & ->)|(? & _ & _ & ->)];
          [apply extends_refl | apply extends_app].
      * apply Deterministic_cases in H as [(? & _ & _ & ->)|(_ & _ & ->)];
          [apply extends_refl | apply extends_app].
  - apply declare_cases in H as [(? & _ & _ & ->)|(? & _ & _ & ->)];
      [apply extends_refl | apply extends_app].
Qed.

(** ** Induction over values, through the argument dict of a prior *)

Lemma value_nested_ind (P : Value -> Prop) :
  (forall z, P (VInt z)) ->
  (forall x, P (VFloat x)) ->
  (forall a, P (VArray a)) ->
  (forall e, P (VExpr e)) ->
  (forall r, P (VRV r)) ->
  (forall name args, Forall (fun kv => P (snd kv)) args -> P (VPrior name args)) ->
  forall v, P v.
Proof.
  intros Hi Hf Ha He Hr Hp.
  fix IH 1.
  intros [z|x|a|e|r|name args];
    [apply Hi | apply Hf | apply Ha | apply He | apply Hr | apply Hp].
  induction args as [|[k x] rest IHrest]; constructor; [apply IH | exact IHrest].
Qed.

(** ** The dict comprehension of line 59 *)

Lemma map_items_extends (f : string -> Value -> @M rt_exn Graph Value)
  (kw : Kwargs) :
  Forall (fun kv => forall g res g',
            f (fst kv) (snd kv) g = (res, g') -> extends g g') kw ->
  forall g res g', map_items f kw g = (res, g') -> extends g g'.
Proof.
  induction 1 as [|[k v] rest Hhd _ IH]; intros g res g' H; simpl in H.
  - injection H as _ <-. apply extends_refl.
  - unfold bind in H. destruct (f k v g) as [[e|v'] g1] eqn:Hf.
    + injection H as _ <-. exact (Hhd _ _ _ Hf).
    + apply extends_trans with g1; [exact (Hhd _ _ _ Hf)|].
      destruct (map_items f rest g1) as [[e|rest'] g2] eqn:Hm;
        injection H as _ <-; exact (IH _ _ _ Hm).
Qed.

Lemma map_items_keys (f : string -> Value -> @M rt_exn Graph Value)
  (kw : Kwargs) :
  forall g kw' g', map_items f kw g = (inr kw', g') -> keys kw' = keys kw.
Proof.
  induction kw as [|[k v] rest IH]; intros g kw' g' H; simpl in H.
  - now injection H as <- _.
  - unfold bind in H. destruct (f k v g) as [[e|v'] g1]; [discriminate|].
    destruct (map_items f rest g1) as [[e|rest'] g2] eqn:Hm; [discriminate|].
    injection H as <- _. simpl. f_equal. exact (IH _ _ _ Hm).
Qed.

Lemma body_extends (nc : bool) (label : string) (dist : dist_id)
  (expand : @M rt_exn Graph Kwargs) :
  (forall g res g', expand g = (res, g') -> extends g g') ->
  forall g res g',
    build_dist_body R nc label dist expand g = (res, g') -> extends g g'.
Proof.
  intros Hexp g res g' H. unfold build_dist_body, bind, lift_result in H.
  destruct (resolve_dist R (dists R) dist) as [e|d].
  - injection H as _ <-. apply extends_refl.
  - destruct (expand g) as [[e|kw'] g1] eqn:He.
    + injection H as _ <-. exact (Hexp _ _ _ He).
    + apply extends_trans with g1; [exact (Hexp _ _ _ He)|].
      exact (construct_extends _ _ _ _ _ _ _ H).
Qed.

Lemma _expand_args_extends (v : Value) :
  forall nc label key g res g',
    _expand_args R nc label key v g = (res, g') -> extends g g'.
Proof.
  induction v as [z|x|a|e|r|name args IH] using value_nested_ind;
    intros nc label key g res g' H; simpl in H;
    try (injection H as _ <-; apply extends_refl).
  unfold bind, lift_result in H. fold (@bind rt_exn) in H.
  destruct (bind_call args) as [e|[]].
  - injection H as _ <-. apply extends_refl.
  - match type of H with
    | context [build_dist_body R nc ?l name ?ex g] =>
        destruct (build_dist_body R nc l name ex g) as [[e|r] g1] eqn:Hb;
        assert (Hext : extends g g1)
    end.
    1,3: (eapply body_extends; [|exact Hb];
          apply map_items_extends;
          eapply Forall_impl; [|exact IH];
          intros [k x] Hx g0 res0 g0' H0; exact (Hx _ _ _ _ _ _ H0)).
    + now injection H as _ <-.
    + now injection H as _ <-.
Qed.

Lemma expand_kwargs_extends (nc : bool) (label : string) (kw : Kwargs) :
  forall g res g', expand_kwargs R nc label kw g = (res, g') -> extends g g'.
Proof.
  unfold expand_kwargs. apply map_items_extends.
  apply Forall_forall. intros [k x] _ g res g' H.
  exact (_expand_args_extends _ _ _ _ _ _ _ H).
Qed.

Lemma _build_dist_extends (nc : bool) (label : string) (dist : dist_id)
  (kw : Kwargs) (g : Graph) (res : Exn + rv) (g' : Graph) :
  _build_dist R nc label dist kw g = (res, g') -> extends g g'.
Proof.
  unfold _build_dist. apply body_extends. apply expand_kwargs_extends.
Qed.

(** A nested prior is expanded by a call of [_build_dist] on its own name
    and its own arguments, under the label [label_key]. *)
Lemma _expand_args_prior (nc : bool) (label key : string) (name : dist_id)
  (args : Kwargs) (g : Graph) :
  _expand_args R nc label key (VPrior name args) g =
  bind (call_build_dist R nc (label ++ "_" ++ key)%string name args)
       (fun r => ret (VRV r)) g.
Proof.
  simpl. unfold call_build_dist, _build_dist, expand_kwargs, bind, lift_result.
  destruct (bind_call args) as [e|[]]; reflexivity.
Qed.

(** A successful call declares the variable [label], and declares it last. *)
Lemma _build_dist_ok (nc : bool) (label : string) (dist : dist_id)
  (kw : Kwargs) (g : Graph) (r : rv) (g' : Graph) :
  _build_dist R nc label dist kw g = (inr r, g') ->
  rv_name r = label /\
  exists d kw' g1,
    resolve_dist R (dists R) dist = inr d /\
    expand_kwargs R nc label kw g = (inr kw', g1) /\
    construct R nc label d kw' g1 = (inr r, g').
Proof.
  unfold _build_dist, build_dist_body, bind, lift_result. intros H.
  destruct (resolve_dist R (dists R) dist) as [e|d]; [discriminate|].
  destruct (expand_kwargs R nc label kw g) as [[e|kw'] g1] eqn:He;
    [discriminate|].
  split; [exact (proj1 (construct_ok _ _ _ _ _ _ _ H))|].
  now exists d, kw', g1.
Qed.

Lemma construct_declares (nc : bool) (label : string) (d : callable)
  (kw : Kwargs) (g : Graph) (r : rv) (g' : Graph) :
  construct R nc label d kw g = (inr r, g') ->
  exists own n,
    g' = g ++ own /\ In n own /\ node_name n = label /\
    (forall m, In m own ->
       node_name m = label \/ node_name m = (label ++ "_offset")%string).
Proof.
  intros H.
  apply construct_ok in H
    as [_ [(_ & c & _ & ->)|(_ & shp & sname & c & _ & _ & _ & ->)]].
  - exists [NDist label d kw c], (NDist label d kw c).
    repeat split; simpl; auto.
    intros m [<-|[]]. now left.
  - eexists _, (NDeterministic label _). split; [reflexivity|].
    repeat split; simpl; auto.
    intros m [<-|[<-|[]]]; simpl; auto.
Qed.

Lemma call_build_dist_ok (nc : bool) (label : string) (dist : dist_id)
  (kw : Kwargs) (g : Graph) (r : rv) (g' : Graph) :
  call_build_dist R nc label dist kw g = (inr r, g') ->
  @bind_call F callable rt_exn kw = inr tt /\
  _build_dist R nc label dist kw g = (inr r, g').
Proof.
  unfold call_build_dist, bind, lift_result.
  destruct (bind_call kw) as [e|[]]; [discriminate | auto].
Qed.

Lemma expand_items (nc : bool) (label : string) (g0 : Graph) (kw : Kwargs) :
  forall g kw' g1,
    extends g0 g ->
    expand_kwargs R nc label kw g = (inr kw', g1) ->
    Forall2 (expanded_item R nc label g0 g1) kw kw'.
Proof.
  induction kw as [|[k v] rest IH]; intros g kw' g1 Hg H.
  - injection H as <- _. constructor.
  - unfold expand_kwargs in H. simpl in H. unfold bind in H.
    destruct (_expand_args R nc label k v g) as [[e|v'] g2] eqn:Hv;
      [discriminate|].
    fold (expand_kwargs R nc label rest) in H.
    destruct (expand_kwargs R nc label rest g2) as [[e|rest'] g3] eqn:Hrest;
      [discriminate|].
    injection H as <- <-.
    pose proof (_expand_args_extends _ _ _ _ _ _ _ Hv) as Hgg2.
    pose proof (expand_kwargs_extends _ _ _ _ _ _ Hrest) as Hg2g3.
    constructor.
    + split; [reflexivity|]. simpl.
      destruct v as [z|x|a|e|r|name args];
        try (simpl in Hv; now injection Hv as <- _).
      rewrite _expand_args_prior in Hv. unfold bind in Hv.
      destruct (call_build_dist R nc (label ++ "_" ++ k)%string name args g)
        as [[e|r] g2'] eqn:Hcall; [discriminate|].
      injection Hv as <- <-.
      exists g, g2', r. repeat split; try assumption.
      * destruct (call_build_dist_ok _ _ _ _ _ _ _ Hcall) as [_ Hb].
        exact (proj1 (_build_dist_ok _ _ _ _ _ _ _ Hb)).
      * destruct (call_build_dist_ok _ _ _ _ _ _ _ Hcall) as [_ Hb].
        destruct (_build_dist_ok _ _ _ _ _ _ _ Hb)
          as (Hname & d & kw' & g1 & _ & Hexp & Hcons).
        destruct (expand_kwargs_extends _ _ _ _ _ _ Hexp) as [e1 ->].
        destruct (construct_declares _ _ _ _ _ _ _ Hcons)
          as (own & n & -> & Hin & Hn & _).
        exists (e1 ++ own), n. rewrite app_assoc.
        repeat split; [apply in_or_app; now right | congruence].
    + apply (IH g2); [eapply extends_trans; eassumption | assumption].
Qed.

(** C8.  A successful call of the builder has resolved the identifier,
    then walked the keyword dict in order: every item keeps its key, an item
    whose value is not a nested prior keeps its value, and an item whose
    value is a nested prior [Prior(name, args)] has been built by a call of
    the builder on [name] and [args] under the label [label_key], declaring
    a variable of that name whose handle replaces the value.  Only then is
    the owning variable constructed, from the substituted keywords: every
    hyperprior variable lies in the graph [g1] the owner's declaration is
    appended to. *)
Theorem hyperpriors_are_built_first (nc : bool) (label : string)
  (dist : dist_id) (kw : Kwargs) (g : Graph) (r : rv) (g' : Graph) :
  _build_dist R nc label dist kw g = (inr r, g') ->
  exists d kw' g1 own,
    resolve_dist R (dists R) dist = inr d /\
    expand_kwargs R nc label kw g = (inr kw', g1) /\
    Forall2 (expanded_item R nc label g g1) kw kw' /\
    construct R nc label d kw' g1 = (inr r, g') /\
    g' = g1 ++ own /\
    (exists n, In n own /\ node_name n = label).
Proof.
  intros H.
  destruct (_build_dist_ok _ _ _ _ _ _ _ H) as (_ & d & kw' & g1 & Hd & He & Hc).
  destruct (construct_declares _ _ _ _ _ _ _ Hc) as (own & n & Hg' & Hin & Hn & _).
  exists d, kw', g1, own. repeat split; try assumption.
  - exact (expand_items nc label g kw g kw' g1 (extends_refl g) He).
  - now exists n.
Qed.

(** A value that is not a nested prior is handed on as it is, and nothing
    is declared. *)
Lemma _expand_args_other (nc : bool) (label key : string) (v : Value)
  (g : Graph) :
  (forall name args, v <> VPrior name args) ->
  _expand_args R nc label key v g = (inr v, g).
Proof.
  intros Hv. destruct v; try reflexivity. now destruct (Hv name args).
Qed.

(** ** Resolution of the distribution identifier *)


(** ** The non-centered branch needs a shape *)

Lemma expand_kwargs_mem (nc : bool) (label k : string) (kw kw' : Kwargs)
  (g g1 : Graph) :
  expand_kwargs R nc label kw g = (inr kw', g1) -> mem k kw' = mem k kw.
Proof.
  intros H. apply lookup_keys. exact (map_items_keys _ _ _ _ _ H).
Qed.

Lemma _build_dist_missing_shape (nc : bool) (label : string) (dist : dist_id)
  (kw : Kwargs) (g : Graph) (d : callable) (kw' : Kwargs) (g1 : Graph) :
  resolve_dist R (dists R) dist = inr d ->
  expand_kwargs R nc label kw g = (inr kw', g1) ->
  noncentered_cond nc kw' = true ->
  mem "shape" kw = false ->
  _build_dist R nc label dist kw g = (inl (KeyError "shape"), g1).
Proof.
  intros Hd He Hc Hs.
  unfold _build_dist, build_dist_body, bind, lift_result. rewrite Hd, He.
  apply construct_missing_shape; [assumption|].
  rewrite <- (expand_kwargs_mem _ _ "shape" _ _ _ _ He) in Hs.
  unfold mem in Hs. now destruct (lookup "shape" kw').
Qed.

Lemma _build_dist_noncentered_shape (nc : bool) (label : string)
  (dist : dist_id) (kw : Kwargs) (g : Graph) (kw' : Kwargs) (g1 : Graph)
  (r : rv) (g' : Graph) :
  expand_kwargs R nc label kw g = (inr kw', g1) ->
  noncentered_cond nc kw' = true ->
  _build_dist R nc label dist kw g = (inr r, g') ->
  mem "shape" kw = true.
Proof.
  intros He Hc H.
  destruct (_build_dist_ok _ _ _ _ _ _ _ H) as (_ & d & kw2 & g2 & _ & He2 & Hcons).
  rewrite He in He2. injection He2 as <- <-.
  rewrite <- (expand_kwargs_mem _ _ "shape" _ _ _ _ He).
  apply construct_ok in Hcons as [_ [(Hf & _)|(_ & shp & _ & _ & Hs & _)]];
    [congruence|].
  unfold mem. now rewrite Hs.
Qed.

(** C9.  The recursive call for a nested prior [Prior(name, args)] passes
    on only the prior's own [args].  So when these resolve and expand to
    keywords that meet the four conditions of the non-centered branch:
    without a ["shape"] among [args] the expansion of the nested prior ends
    in [KeyError("shape")] with nothing declared beyond the prior's own
    hyperpriors, and whenever it does return a variable, ["shape"] was
    among [args].  The same holds of any call of the builder. *)
Theorem noncentered_branch_needs_shape (nc : bool) (label key : string)
  (name : dist_id) (args : Kwargs) (g : Graph) (d : callable)
  (kw' : Kwargs) (g1 : Graph) :
  @bind_call F callable rt_exn args = inr tt ->
  resolve_dist R (dists R) name = inr d ->
  expand_kwargs R nc (label ++ "_" ++ key)%string args g = (inr kw', g1) ->
  noncentered_cond nc kw' = true ->
  _expand_args R nc label key (VPrior name args) g =
    bind (_build_dist R nc (label ++ "_" ++ key)%string name args)
         (fun r => ret (VRV r)) g
  /\ (mem "shape" args = false ->
      _build_dist R nc (label ++ "_" ++ key)%string name args g =
        (inl (KeyError "shape"), g1)
      /\ _expand_args R nc label key (VPrior name args) g =
        (inl (KeyError "shape"), g1))
  /\ (forall v g', _expand_args R nc label key (VPrior name args) g = (inr v, g') ->
      mem "shape" args = true)
  /\ (forall r g', _build_dist R nc (label ++ "_" ++ key)%string name args g
                   = (inr r, g') ->
      mem "shape" args = true).
Proof.
  intros Hb Hd He Hc.
  assert (Hfwd : _expand_args R nc label key (VPrior name args) g =
                 bind (_build_dist R nc (label ++ "_" ++ key)%string name args)
                      (fun r => ret (VRV r)) g).
  { rewrite _expand_args_prior. unfold call_build_dist, bind, lift_result.
    now rewrite Hb. }
  split; [exact Hfwd|]. split; [|split].
  - intros Hs.
    pose proof (_build_dist_missing_shape _ _ _ _ _ _ _ _ Hd He Hc Hs) as Hk.
    split; [exact Hk|]. rewrite Hfwd. unfold bind. now rewrite Hk.
  - intros v g' Hv. rewrite Hfwd in Hv. unfold bind in Hv.
    destruct (_build_dist R nc (label ++ "_" ++ key)%string name args g)
      as [[e|r] g2] eqn:Hr; [discriminate|].
    exact (_build_dist_noncentered_shape _ _ _ _ _ _ _ _ _ He Hc Hr).
  - intros r g' Hr.
    exact (_build_dist_noncentered_shape _ _ _ _ _ _ _ _ _ He Hc Hr).
Qed.

(** ** [reset] and what [build] leaves alone *)

Lemma in_model_frame {A : Type} (c : @M rt_exn Graph A)
  (self : @backend F callable trace advi) :
  let out := in_model c self in
  fst out = fst (c (model self)) /\
  model (snd out) = snd (c (model self)) /\
  mu (snd out) = mu self /\ par_groups (snd out) = par_groups self /\
  spec (snd out) = spec self /\ trace_ (snd out) = trace_ self /\
  advi_params (snd out) = advi_params self.
Proof.
  unfold in_model. destruct (c (model self)) as [r g]. simpl. now repeat split.
Qed.

Lemma build_term_frame (sp : model_spec) (t : term)
  (self : @backend F callable trace advi) :
  let out := build_term R sp t self in
  spec (snd out) = spec self /\ trace_ (snd out) = trace_ self /\
  advi_params (snd out) = advi_params self /\
  par_groups (snd out) = par_groups self.
Proof.
  unfold build_term, bind, lift_result.
  destruct (n_cols_of (t_data t)) as [e|k]; [now repeat split|].
  destruct (term_kwargs k (t_prior_args t)) as [e|kw]; [now repeat split|].
  pose proof (in_model_frame
                (call_build_dist R (noncentered sp) (t_name t) (t_prior_name t) kw)
                self) as Hf.
  destruct (in_model _ self) as [[e|coef] s1]; simpl in Hf;
    destruct Hf as (_ & _ & _ & Hp & Hs & Ht & Ha); [now repeat split|].
  unfold get_mu. destruct (mu s1) as [m|]; simpl; now repeat split.
Qed.

Lemma for_each_frame (sp : model_spec) (ts : list term) :
  forall self : @backend F callable trace advi,
    let out := for_each (build_term R sp) ts self in
    spec (snd out) = spec self /\ trace_ (snd out) = trace_ self /\
    advi_params (snd out) = advi_params self /\
    par_groups (snd out) = par_groups self.
Proof.
  induction ts as [|t rest IH]; intros self; simpl; [now repeat split|].
  unfold bind. pose proof (build_term_frame sp t self) as Hf.
  destruct (build_term R sp t self) as [[e|[]] s1]; simpl in Hf;
    destruct Hf as (Hs & Ht & Ha & Hp); [now repeat split|].
  specialize (IH s1). simpl in IH. destruct IH as (Hs' & Ht' & Ha' & Hp').
  repeat split; congruence.
Qed.

Lemma build_frame_aux (sp : model_spec) (do_reset : bool)
  (self : @backend F callable trace advi) (res : Exn + unit)
  (self' : @backend F callable trace advi) :
  build R sp do_reset self = (res, self') ->
  trace_ self' = trace_ self /\ advi_params self' = advi_params self.
Proof.
  unfold build. intros H.
  unfold bind at 1 in H.
  assert (H0 : exists s0,
             (if do_reset then reset else @ret rt_exn _ _ tt) self = (inr tt, s0)
             /\ trace_ s0 = trace_ self /\ advi_params s0 = advi_params self).
  { destruct do_reset; eexists; simpl; now repeat split. }
  destruct H0 as (s0 & E0 & T0 & A0). rewrite E0 in H. clear E0.
  unfold bind at 1, set_mu at 1 in H.
  match type of H with
  | context [bind (for_each _ _) _ ?s] => set (s1 := s) in H
  end.
  assert (T1 : trace_ s1 = trace_ self) by (subst s1; simpl; congruence).
  assert (A1 : advi_params s1 = advi_params self) by (subst s1; simpl; congruence).
  clearbody s1. clear T0 A0.
  unfold bind at 1 in H.
  pose proof (for_each_frame sp (terms sp) s1) as Hf.
  destruct (for_each (build_term R sp) (terms sp) s1) as [[e|[]] s2];
    simpl in Hf; destruct Hf as (_ & T2 & A2 & _);
    [injection H as _ <-; split; congruence|].
  unfold bind at 1, lift_result at 1 in H.
  destruct (resolve_link (link (spec_family sp))) as [e|link_f];
    [injection H as _ <-; split; congruence|].
  unfold bind at 1, get_mu at 1 in H.
  destruct (mu s2) as [m|]; [|injection H as _ <-; split; congruence].
  unfold bind in H.
  match type of H with
  | context [in_model ?c s2] => pose proof (in_model_frame c s2) as Hi;
      destruct (in_model c s2) as [[e|r] s3]
  end; simpl in Hi; destruct Hi as (_ & _ & _ & _ & _ & T3 & A3);
    injection H as _ <-; simpl; split; congruence.
Qed.

Lemma build_frame (sp : model_spec) (do_reset : bool)
  (self : @backend F callable trace advi) :
  trace_ (snd (build R sp do_reset self)) = trace_ self /\
  advi_params (snd (build R sp do_reset self)) = advi_params self.
Proof.
  destruct (build R sp do_reset self) as [res self'] eqn:H.
  exact (build_frame_aux _ _ _ _ _ H).
Qed.

(** C10.  [reset] returns normally and installs a fresh model graph, no
    linear predictor and an empty parameter-group table, leaving [spec],
    [trace] and [advi_params] as they were; and [build] with reset enabled,
    however it ends, leaves [trace] and [advi_params] as they were. *)
Theorem reset_keeps_inference_results (self : @backend F callable trace advi) :
  fst (@reset F callable rt_exn trace advi self) = inr tt /\
  model (snd (@reset F callable rt_exn trace advi self)) = [] /\
  mu (snd (@reset F callable rt_exn trace advi self)) = None /\
  par_groups (snd (@reset F callable rt_exn trace advi self)) = [] /\
  spec (snd (@reset F callable rt_exn trace advi self)) = spec self /\
  trace_ (snd (@reset F callable rt_exn trace advi self)) = trace_ self /\
  advi_params (snd (@reset F callable rt_exn trace advi self)) = advi_params self /\
  (forall sp : model_spec,
     trace_ (snd (build R sp true self)) = trace_ self /\
     advi_params (snd (build R sp true self)) = advi_params self).
Proof.
  simpl. repeat split; apply build_frame.
Qed.

(** ** [run]: dispatch on the method name *)

Lemma lower_ascii_idempotent (c : ascii) :
  lower_ascii (lower_ascii c) = lower_ascii c.
Proof.
  destruct c as [[] [] [] [] [] [] [] []]; reflexivity.
Qed.

Lemma lower_idempotent (s : string) : lower (lower s) = lower s.
Proof.
  induction s as [|c s IH]; simpl; [reflexivity|].
  now rewrite lower_ascii_idempotent, IH.
Qed.

(** C7.  [run] compares [method.lower()] with the three names: two method
    strings with the same lower-casing run alike, so a method runs as its
    own lower-casing does; the lower-cased name
    "mcmc" samples and wraps the trace, "advi" fits and returns the
    variational parameters, "laplace" returns what [_laplace] returns; and
    a method whose lower-casing is none of the three returns [None], raises
    nothing and leaves the back-end as it was. *)
Theorem run_dispatch (start : option Value) (method init : string)
  (n_init : Z) (kw : Kwargs) (self : @backend F callable trace advi) :
  (forall method', lower method' = lower method ->
     run R start method' init n_init kw self
     = run R start method init n_init kw self) /\
  run R start (lower method) init n_init kw self
  = run R start method init n_init kw self /\
  (lower method = "mcmc" ->
     run R start method init n_init kw self =
     match pm_sample R
             (match lookup "samples" kw with Some v => v | None => VInt 1000 end)
             start init n_init (dict_remove "samples" kw) (model self) with
     | inl e => (inl (Propagated e), self)
     | inr tr =>
         match from_pymc3 R tr (model self) with
         | inl e => (inl (Propagated e), set_trace tr self)
         | inr d => (inr (RInferenceData d), set_trace tr self)
         end
     end) /\
  (lower method = "advi" ->
     run R start method init n_init kw self =
     match ADVI R start kw (model self) with
     | inl e => (inl (Propagated e), self)
     | inr a => (inr (RAdvi a), set_advi a self)
     end) /\
  (lower method = "laplace" ->
     run R start method init n_init kw self =
     match _laplace R (model self) with
     | inl e => (inl e, self)
     | inr d => (inr (RLaplace d), self)
     end) /\
  (lower method <> "mcmc" -> lower method <> "advi" ->
   lower method <> "laplace" ->
     run R start method init n_init kw self = (inr RNone, self)).
Proof.
  repeat split.
  - intros method' Heq. unfold run. now rewrite Heq.
  - unfold run. now rewrite lower_idempotent.
  - intros H. unfold run. now rewrite H.
  - intros H. unfold run. now rewrite H.
  - intros H. unfold run. now rewrite H.
  - intros H1 H2 H3. unfold run.
    apply String.eqb_neq in H1, H2, H3. now rewrite H1, H2, H3.
Qed.

(** ** [_laplace] *)

Lemma np_reshape_error (xs : list F) (shp : list nat) (e : Exn) :
  np_reshape xs shp = inl e ->
  e = ValueError "cannot reshape array into the requested shape".
Proof.
  unfold np_reshape. destruct (Nat.eqb _ _); [discriminate|].
  now intros [= <-].
Qed.

Lemma reshape_walk_error (stds : list F) (shapes : list (list nat)) :
  forall idx0 (e : Exn),
    reshape_walk stds idx0 shapes = inl e ->
    e = ValueError "cannot reshape array into the requested shape".
Proof.
  induction shapes as [|shp rest IH]; intros idx0 e H; simpl in H;
    [discriminate|].
  destruct (np_reshape _ shp) as [e1|a] eqn:Hr.
  - injection H as <-. exact (np_reshape_error _ _ _ Hr).
  - destruct (reshape_walk stds (idx0 + list_sum shp) rest) as [e2|tl] eqn:Hw;
      [|discriminate].
    injection H as <-. exact (IH _ _ Hw).
Qed.

(** C3.  [_laplace] ends in [LinAlgError("Singular matrix. Use mcmc or advi
    method")] exactly when the MAP point and the Hessian were obtained and
    the determinant of that Hessian compares equal to zero; no result is
    returned then, and the outcome is the same whatever the inverse routine
    is, which is not consulted. *)
Theorem laplace_singular_hessian (m : Graph) :
  let varis :=
    filter (fun v => negb (is_transformed_name R v)) (unobserved_RVs R m) in
  (_laplace R m = inl (LinAlgError "Singular matrix. Use mcmc or advi method")
   <->
   exists maps hessian,
     find_MAP R (test_point R m) varis m = inr maps /\
     find_hessian R maps varis m = inr hessian /\
     is_zero R (det R hessian) = true) /\
  (forall maps hessian inv',
     find_MAP R (test_point R m) varis m = inr maps ->
     find_hessian R maps varis m = inr hessian ->
     is_zero R (det R hessian) = true ->
     _laplace (with_inv R inv') m
     = inl (LinAlgError "Singular matrix. Use mcmc or advi method")).
Proof.
  intros varis. split; [split|].
  - unfold _laplace. fold varis. intros H.
    destruct (find_MAP R (test_point R m) varis m) as [e|maps] eqn:Hm;
      [discriminate|].
    destruct (find_hessian R maps varis m) as [e|hessian] eqn:Hh;
      [discriminate|].
    exists maps, hessian. split; [reflexivity|]. split; [exact Hh|].
    destruct (is_zero R (det R hessian)); [reflexivity|].
    destruct (inv R hessian) as [e|hinv]; [discriminate|].
    match type of H with
    | context [reshape_walk ?s 0 ?l] =>
        destruct (reshape_walk s 0 l) as [e|tl] eqn:Hw; [|discriminate]
    end.
    apply reshape_walk_error in Hw. subst e. discriminate.
  - intros (maps & hessian & Hm & Hh & Hz). unfold _laplace. fold varis.
    now rewrite Hm, Hh, Hz.
  - intros maps hessian inv' Hm Hh Hz. unfold _laplace, with_inv. simpl.
    fold varis. now rewrite Hm, Hh, Hz.
Qed.

(** Where the sum of a shape is its product (every vector, every scalar)
    the walk of the code is the walk by number of elements. *)
Lemma reshape_walk_by_size (stds : list F) (shapes : list (list nat)) :
  Forall (fun shp => list_sum shp = size_of shp) shapes ->
  forall idx0,
    @reshape_walk F rt_exn stds idx0 shapes = walk_by_size stds idx0 shapes.
Proof.
  induction 1 as [|shp rest Hs _ IH]; intros idx0; simpl; [reflexivity|].
  rewrite Hs. destruct (np_reshape _ shp); [reflexivity|]. now rewrite IH.
Qed.

(** ** [build]: the linear predictor *)

Lemma build_term_ok (sp : model_spec) (t : term)
  (self self' : @backend F callable trace advi) :
  build_term R sp t self = (inr tt, self') ->
  exists m coef k,
    mu self = Some m /\
    n_cols_of (t_data t) = @inr Exn nat k /\
    _build_dist R (noncentered sp) (t_name t) (t_prior_name t)
      (("shape", VInt (Z.of_nat k)) :: t_prior_args t) (model self)
    = (inr coef, model self') /\
    mu self' = Some (EAdd m (contribution t coef)).
Proof.
  unfold build_term, bind, lift_result. intros H.
  destruct (n_cols_of (t_data t)) as [e|k]; [discriminate|].
  unfold term_kwargs in H.
  destruct (mem "shape" (t_prior_args t)); [discriminate|].
  match type of H with
  | context [in_model ?c self] =>
      pose proof (in_model_frame c self) as Hf;
      destruct (in_model c self) as [[e|coef] s1]; [discriminate|]
  end.
  simpl in Hf. destruct Hf as (Hres & Hmodel & Hmu & _).
  unfold get_mu in H. rewrite Hmu in H.
  destruct (mu self) as [m|]; [|discriminate].
  unfold set_mu in H. injection H as <-. simpl.
  exists m, coef, k. repeat split.
  match type of Hres with
  | _ = fst ?x => destruct x as [r g1] eqn:Hcall
  end.
  simpl in Hres, Hmodel. subst r g1.
  exact (proj2 (call_build_dist_ok _ _ _ _ _ _ _ Hcall)).
Qed.

Lemma term_built_weaken (sp : model_spec) (g0 g0' g1 g1' : Graph) (t : term)
  (c : rv) :
  extends g0' g0 -> extends g1 g1' ->
  term_built R sp g0 g1 t c -> term_built R sp g0' g1' t c.
Proof.
  intros H0 H1 (k & ga & gb & Hk & Ha & Hb & Hcall).
  exists k, ga, gb. repeat split; try assumption;
    eapply extends_trans; eassumption.
Qed.

Lemma for_each_terms (sp : model_spec) (ts : list term) :
  forall (self self' : @backend F callable trace advi) (m0 : expr),
    mu self = Some m0 ->
    for_each (build_term R sp) ts self = (inr tt, self') ->
    extends (model self) (model self') /\
    exists coefs,
      Forall2 (term_built R sp (model self) (model self')) ts coefs /\
      mu self' = Some (predictor_sum m0 (combine ts coefs)).
Proof.
  induction ts as [|t rest IH]; intros self self' m0 Hmu H; simpl in H.
  - injection H as <-. split; [apply extends_refl|].
    exists []. split; [constructor | assumption].
  - unfold bind in H.
    destruct (build_term R sp t self) as [[e|[]] s1] eqn:Ht; [discriminate|].
    destruct (build_term_ok _ _ _ _ Ht) as (m & coef & k & Hm & Hk & Hcall & Hmu1).
    rewrite Hmu in Hm. injection Hm as <-.
    destruct (IH _ _ _ Hmu1 H) as (Hext & coefs & Hall & Hmu').
    pose proof (_build_dist_extends _ _ _ _ _ _ _ Hcall) as Hext1.
    split; [eapply extends_trans; eassumption|].
    exists (coef :: coefs). split.
    + constructor.
      * exists k, (model self), (model s1).
        repeat split; try assumption. apply extends_refl.
      * eapply Forall2_impl; [|exact Hall].
        intros t' c' Hb. eapply term_built_weaken; [exact Hext1 | | exact Hb].
        apply extends_refl.
    + exact Hmu'.
Qed.

(** A successful [build] has given every term a coefficient handle and
    left in [self.mu] the float zero plus the terms' contributions, in
    order. *)
Lemma build_predictor (sp : model_spec) (do_reset : bool)
  (self self' : @backend F callable trace advi) :
  build R sp do_reset self = (inr tt, self') ->
  exists coefs,
    Forall2 (term_built R sp (if do_reset then [] else model self) (model self'))
      (terms sp) coefs /\
    mu self' = Some (predictor_sum (EConst (mk_ndarray [] [zero R]))
                       (combine (terms sp) coefs)).
Proof.
  unfold build. intros H. unfold bind at 1 in H.
  assert (H0 : exists s0,
             (if do_reset then reset else @ret rt_exn _ _ tt) self = (inr tt, s0)
             /\ model s0 = (if do_reset then [] else model self)).
  { destruct do_reset; eexists; simpl; now repeat split. }
  destruct H0 as (s0 & E0 & M0). rewrite E0 in H. clear E0.
  unfold bind at 1, set_mu at 1 in H.
  match type of H with
  | context [bind (for_each _ _) _ ?s] => set (s1 := s) in H
  end.
  assert (M1 : model s1 = model s0) by reflexivity.
  assert (U1 : mu s1 = Some (EConst (mk_ndarray [] [zero R]))) by reflexivity.
  clearbody s1.
  unfold bind at 1 in H.
  destruct (for_each (build_term R sp) (terms sp) s1) as [[e|[]] s2] eqn:Hloop;
    [discriminate|].
  destruct (for_each_terms _ _ _ _ _ U1 Hloop) as (_ & coefs & Hall & Hmu2).
  unfold bind at 1, lift_result at 1 in H.
  destruct (resolve_link (link (spec_family sp))) as [e|link_f]; [discriminate|].
  unfold bind at 1, get_mu at 1 in H. rewrite Hmu2 in H.
  unfold bind in H.
  match type of H with
  | context [in_model ?c s2] =>
      pose proof (in_model_frame c s2) as Hi;
      destruct (in_model c s2) as [[e|r] s3]; [discriminate|];
      destruct (c (model s2)) as [res g3] eqn:Hcall
  end.
  simpl in Hi. destruct Hi as (Hres & Hm3 & Hmu3 & _).
  unfold set_spec in H. injection H as <-. simpl.
  exists coefs. split; [|congruence].
  eapply Forall2_impl; [|exact Hall].
  intros t c Hb. rewrite <- M0, <- M1.
  eapply term_built_weaken; [apply extends_refl | | exact Hb].
  rewrite Hm3. subst res.
  destruct (call_build_dist_ok _ _ _ _ _ _ _ Hcall) as [_ Hbd].
  exact (_build_dist_extends _ _ _ _ _ _ _ Hbd).
Qed.

Lemma term_built_name (sp : model_spec) (g0 g1 : Graph) (t : term) (c : rv) :
  term_built R sp g0 g1 t c -> rv_name c = t_name t.
Proof.
  intros (k & ga & gb & _ & _ & _ & Hcall).
  exact (proj1 (_build_dist_ok _ _ _ _ _ _ _ Hcall)).
Qed.

(** The variable that carries the coefficients of a built term was declared
    with the shape handed to the builder: the variable itself, or its
    offset in the non-centered branch. *)
Lemma term_built_shape (sp : model_spec) (g0 g1 : Graph) (t : term) (c : rv)
  (n k : nat) :
  term_built R sp g0 g1 t c ->
  shape (t_data t) = [n; k] ->
  exists nd,
    In nd g1 /\
    (node_name nd = t_name t \/ node_name nd = (t_name t ++ "_offset")%string) /\
    lookup "shape" (node_kwargs nd) = Some (VInt (Z.of_nat k)).
Proof.
  intros (k' & ga & gb & Hk & _ & [e1 ->] & Hcall) Hshape.
  unfold n_cols_of in Hk. rewrite Hshape in Hk. simpl in Hk.
  injection Hk as <-.
  destruct (_build_dist_ok _ _ _ _ _ _ _ Hcall)
    as (_ & d & kw' & g2 & _ & Hexp & Hcons).
  assert (Hs : lookup "shape" kw' = Some (VInt (Z.of_nat k))).
  { unfold expand_kwargs in Hexp. simpl in Hexp. unfold bind, ret in Hexp.
    match type of Hexp with
    | context [map_items ?f ?l ga] => destruct (map_items f l ga) as [[e|rest'] g3]
    end; [discriminate|].
    now injection Hexp as <- _. }
  apply construct_ok in Hcons
    as [_ [(_ & cls & _ & ->)|(_ & shp & sname & cls & Hs' & _ & _ & ->)]].
  - exists (NDist (t_name t) d kw' cls). repeat split.
    + apply in_or_app. left. apply in_or_app. right. now left.
    + now left.
    + exact Hs.
  - rewrite Hs in Hs'. injection Hs' as <-.
    exists (NDist (t_name t ++ "_offset")%string (pm_Normal R)
              (offset_kwargs (VInt (Z.of_nat k))) cls).
    repeat split.
    + apply in_or_app. left. apply in_or_app. right. now left.
    + now right.
Qed.

(** ** What the contributions evaluate to *)

Lemma map2_length {A B C : Type} (f : A -> B -> C) (xs : list A) :
  forall ys, List.length (map2 f xs ys)
             = Nat.min (List.length xs) (List.length ys).
Proof.
  induction xs as [|x xs IH]; intros [|y ys]; simpl; auto.
Qed.

Lemma map2_nth {A B C : Type} (f : A -> B -> C) (da : A) (db : B) (dc : C)
  (xs : list A) :
  forall ys i,
    i < List.length xs -> i < List.length ys ->
    nth i (map2 f xs ys) dc = f (nth i xs da) (nth i ys db).
Proof.
  induction xs as [|x xs IH]; intros [|y ys] [|i] Hx Hy; simpl in *;
    try lia; [reflexivity|].
  apply IH; lia.
Qed.

Lemma nth_map_in_range {A B : Type} (f : A -> B) (da : A) (db : B)
  (xs : list A) :
  forall i, i < List.length xs -> nth i (map f xs) db = f (nth i xs da).
Proof.
  induction xs as [|x xs IH]; intros [|i] Hi; simpl in *; try lia.
  - reflexivity.
  - apply IH. lia.
Qed.

Lemma firstn_one_skipn {A : Type} (d : A) (xs : list A) :
  forall i, i < List.length xs -> firstn 1 (skipn i xs) = [nth i xs d].
Proof.
  induction xs as [|x xs IH]; intros [|i] Hi; simpl in *; try lia.
  - reflexivity.
  - apply IH. lia.
Qed.

Lemma norm_index_in_range (g : nat) (z : Z) :
  (0 <= z < Z.of_nat g)%Z -> norm_index g z = Some (Z.to_nat z).
Proof.
  intros [H0 H1]. unfold norm_index.
  apply Z.leb_le in H0. apply Z.ltb_lt in H1. now rewrite H0, H1.
Qed.

(** Selecting from a vector by in-range indices. *)
Lemma take_rows_vector (coef : list F) (idx : list Z) :
  Forall (fun z => (0 <= z < Z.of_nat (List.length coef))%Z) idx ->
  take_rows (List.length coef) 1 coef idx
  = Some (map (fun z => nth (Z.to_nat z) coef (zero R)) idx).
Proof.
  induction 1 as [|z rest Hz _ IH]; cbn [take_rows map]; [reflexivity|].
  rewrite (norm_index_in_range _ _ Hz), IH, Nat.mul_1_r.
  rewrite (firstn_one_skipn (zero R)) by lia. reflexivity.
Qed.

Lemma shape_eqb_refl (s : list nat) : shape_eqb s s = true.
Proof. unfold shape_eqb. now destruct (list_eq_dec Nat.eq_dec s s). Qed.

Lemma eval_random_contribution (t : term) (c : rv)
  (env : string -> option ndarray) (coef pv : list F) :
  t_random t = true ->
  env (rv_name c) = Some (mk_ndarray [List.length coef] coef) ->
  Forall (fun z => (0 <= z < Z.of_nat (List.length coef))%Z) (t_group_index t) ->
  t_predictor t = mk_ndarray [List.length (t_group_index t); 1] pv ->
  eval R env (contribution t c)
  = Some (mk_ndarray [List.length (t_group_index t); 1]
            (map2 (fmul R)
               (map (fun z => nth (Z.to_nat z) coef (zero R)) (t_group_index t))
               pv)).
Proof.
  intros Hr Henv Hidx Hp. unfold contribution. rewrite Hr. simpl.
  rewrite Henv. unfold np_take. simpl.
  rewrite (take_rows_vector _ _ Hidx). unfold np_column. simpl.
  rewrite Hp. unfold broadcast. simpl. now rewrite shape_eqb_refl.
Qed.

Lemma eval_fixed_contribution (t : term) (c : rv)
  (env : string -> option ndarray) (n k : nat) (coef : list F) :
  t_random t = false ->
  shape (t_data t) = [n; k] ->
  env (rv_name c) = Some (mk_ndarray [k] coef) ->
  eval R env (contribution t c)
  = Some (mk_ndarray [n; 1]
            (map (fun i => dot_row R (row_of k (items (t_data t)) i) coef)
                 (seq 0 n))).
Proof.
  intros Hr Hs Henv. unfold contribution. rewrite Hr. simpl.
  rewrite Henv. unfold np_dot. rewrite Hs. simpl.
  now rewrite Nat.eqb_refl.
Qed.

(** The coefficient of a built term, its place in the graph and the way
    it was declared. *)
Lemma term_built_declares (sp : model_spec) (g0 gfin : Graph) (t : term)
  (c : rv) (n k : nat) :
  term_built R sp g0 gfin t c ->
  shape (t_data t) = [n; k] ->
  exists d kw' ga pre own rest,
    extends g0 ga /\
    resolve_dist R (dists R) (t_prior_name t) = inr d /\
    expand_kwargs R (noncentered sp) (t_name t)
      (("shape", VInt (Z.of_nat k)) :: t_prior_args t) ga
    = (inr kw', g0 ++ pre) /\
    lookup "shape" kw' = Some (VInt (Z.of_nat k)) /\
    _build_dist R (noncentered sp) (t_name t) (t_prior_name t)
      (("shape", VInt (Z.of_nat k)) :: t_prior_args t) ga
    = (inr c, g0 ++ pre ++ own) /\
    gfin = g0 ++ pre ++ own ++ rest /\
    coefficient_declared R (noncentered sp) (t_name t) d k kw' c own.
Proof.
  intros (k' & ga & gb & Hk & [e0 ->] & [e2 ->] & Hcall) Hshape.
  unfold n_cols_of in Hk. rewrite Hshape in Hk. simpl in Hk.
  injection Hk as <-.
  destruct (_build_dist_ok _ _ _ _ _ _ _ Hcall)
    as (_ & d & kw' & g1 & Hd & Hexp & Hcons).
  destruct (expand_kwargs_extends _ _ _ _ _ _ Hexp) as [e1 ->].
  assert (Hs : lookup "shape" kw' = Some (VInt (Z.of_nat k))).
  { pose proof Hexp as Hexp'.
    unfold expand_kwargs in Hexp'. simpl in Hexp'. unfold bind, ret in Hexp'.
    match type of Hexp' with
    | context [map_items ?f ?l ?g] =>
        destruct (map_items f l g) as [[e|rest'] g3]
    end; [discriminate|].
    now injection Hexp' as <- _. }
  pose proof (construct_ok _ _ _ _ _ _ _ Hcons) as [_ Hcases].
  assert (Hown : exists own,
             gb = (g0 ++ e0) ++ e1 ++ own /\
             coefficient_declared R (noncentered sp) (t_name t) d k kw' c own).
  { destruct Hcases as [(Hc & cls & -> & ->)|
                        (Hc & shp & sname & cls & Hs' & Hsig & -> & ->)].
    - eexists. split; [now rewrite <- app_assoc|].
      left. split; [exact Hc|]. now exists cls.
    - rewrite Hs in Hs'. injection Hs' as <-.
      eexists. split; [now rewrite <- app_assoc|].
      right. split; [exact Hc|]. now exists sname, cls. }
  destruct Hown as (own & -> & Hdecl).
  exists d, kw', (g0 ++ e0), (e0 ++ e1), own, e2.
  split; [apply extends_app|]. split; [exact Hd|].
  split; [now rewrite app_assoc|]. split; [exact Hs|].
  split; [|split; [|exact Hdecl]].
  - rewrite Hcall. now rewrite <- !app_assoc.
  - now rewrite <- !app_assoc.
Qed.

(** The product of an offset vector and a scalar sigma has the offset's
    shape. *)
Lemma eval_offset_times_sigma (env : string -> option ndarray)
  (off sname : string) (k : nat) (xs : list F) (sg : F) :
  env off = Some (mk_ndarray [k] xs) ->
  env sname = Some (mk_ndarray [] [sg]) ->
  exists out, eval R env (EMul (EVar off) (EVar sname))
              = Some (mk_ndarray [k] out).
Proof.
  intros Ho Hs. simpl. rewrite Ho, Hs. simpl. unfold broadcast. simpl.
  unfold shape_eqb.
  destruct (list_eq_dec Nat.eq_dec [k] []) as [Heq|_]; [discriminate|].
  eexists. reflexivity.
Qed.

(** C6.  A successful [build] leaves in [self.mu] the float zero plus
    every term's contribution in order.  For a fixed-effect term with data
    of shape [(n, k)] the builder was called with [shape = k] ahead of the
    prior's arguments, and among the variables this [build] declared is
    the coefficient, declared with that shape: where the non-centered
    branch is not taken, the variable named after the term, by a call of
    the distribution the prior names on keywords whose ["shape"] is [k];
    where it is taken, a standard-normal offset with [shape = k] followed
    by the deterministic variable named after the term, the product of the
    offset and sigma, which has shape [(k,)] whenever sigma is a scalar.
    The term's contribution is [dot(data, coef)[:, None]], and once the
    coefficients have a value of shape [(k,)] it has shape [(n, 1)] and its
    row [i] is the dot product of row [i] of the data with the
    coefficients. *)
Theorem fixed_effect_contribution (sp : model_spec) (do_reset : bool)
  (self self' : @backend F callable trace advi) :
  build R sp do_reset self = (inr tt, self') ->
  exists coefs,
    Forall2 (term_built R sp (if do_reset then [] else model self) (model self'))
      (terms sp) coefs /\
    mu self' = Some (predictor_sum (EConst (mk_ndarray [] [zero R]))
                       (combine (terms sp) coefs)) /\
    forall t c n k,
      In (t, c) (combine (terms sp) coefs) ->
      t_random t = false ->
      shape (t_data t) = [n; k] ->
      (exists nd,
          In nd (model self') /\
          (node_name nd = t_name t
           \/ node_name nd = (t_name t ++ "_offset")%string) /\
          lookup "shape" (node_kwargs nd) = Some (VInt (Z.of_nat k))) /\
      (exists d kw' ga pre own rest,
          extends (if do_reset then [] else model self) ga /\
          resolve_dist R (dists R) (t_prior_name t) = inr d /\
          expand_kwargs R (noncentered sp) (t_name t)
            (("shape", VInt (Z.of_nat k)) :: t_prior_args t) ga
          = (inr kw', (if do_reset then [] else model self) ++ pre) /\
          lookup "shape" kw' = Some (VInt (Z.of_nat k)) /\
          _build_dist R (noncentered sp) (t_name t) (t_prior_name t)
            (("shape", VInt (Z.of_nat k)) :: t_prior_args t) ga
          = (inr c, (if do_reset then [] else model self) ++ pre ++ own) /\
          model self'
          = (if do_reset then [] else model self) ++ pre ++ own ++ rest /\
          coefficient_declared R (noncentered sp) (t_name t) d k kw' c own) /\
      (forall env sname xs sg,
          env (t_name t ++ "_offset")%string = Some (mk_ndarray [k] xs) ->
          env sname = Some (mk_ndarray [] [sg]) ->
          exists out,
            eval R env (EMul (EVar (t_name t ++ "_offset")%string) (EVar sname))
            = Some (mk_ndarray [k] out)) /\
      contribution t c = EColumn (EDot (EConst (t_data t)) (EVar (t_name t))) /\
      forall env coef,
        env (t_name t) = Some (mk_ndarray [k] coef) ->
        eval R env (contribution t c)
        = Some (mk_ndarray [n; 1]
                  (map (fun i => dot_row R (row_of k (items (t_data t)) i) coef)
                       (seq 0 n))).
Proof.
  intros H. destruct (build_predictor _ _ _ _ H) as (coefs & Hall & Hmu).
  exists coefs. split; [exact Hall|]. split; [exact Hmu|].
  intros t c n k Hin Hr Hs.
  assert (Hb : term_built R sp (if do_reset then [] else model self)
                 (model self') t c).
  { clear - Hall Hin. induction Hall as [|t0 c0 ts cs H0 _ IH]; simpl in Hin;
      [contradiction|].
    destruct Hin as [[= -> ->]|Hin]; [exact H0 | exact (IH Hin)]. }
  pose proof (term_built_name _ _ _ _ _ Hb) as Hname.
  split; [exact (term_built_shape _ _ _ _ _ _ _ Hb Hs)|].
  split; [exact (term_built_declares _ _ _ _ _ _ _ Hb Hs)|].
  split; [intros env sname xs sg; apply eval_offset_times_sigma|].
  split.
  - unfold contribution. now rewrite Hr, Hname.
  - intros env coef Henv. apply eval_fixed_contribution; congruence.
Qed.

(** C5.  For a random-effect term of a successful [build] the contribution
    is [coef[group_index][:, None] * predictor], and once the coefficients
    have a value of shape [(g,)], the group indices lie in [0, g) and the
    predictor is a column with one row per index, the contribution is a
    column whose row [i] is [coef[group_index[i]] * predictor[i]]. *)
Theorem random_effect_contribution (sp : model_spec) (do_reset : bool)
  (self self' : @backend F callable trace advi) :
  build R sp do_reset self = (inr tt, self') ->
  exists coefs,
    Forall2 (term_built R sp (if do_reset then [] else model self) (model self'))
      (terms sp) coefs /\
    mu self' = Some (predictor_sum (EConst (mk_ndarray [] [zero R]))
                       (combine (terms sp) coefs)) /\
    forall t c,
      In (t, c) (combine (terms sp) coefs) ->
      t_random t = true ->
      contribution t c
      = EMul (EColumn (ETake (EVar (t_name t)) (t_group_index t)))
             (EConst (t_predictor t)) /\
      forall env coef pv,
        env (t_name t) = Some (mk_ndarray [List.length coef] coef) ->
        Forall (fun z => (0 <= z < Z.of_nat (List.length coef))%Z)
               (t_group_index t) ->
        t_predictor t = mk_ndarray [List.length (t_group_index t); 1] pv ->
        List.length pv = List.length (t_group_index t) ->
        exists out,
          eval R env (contribution t c)
          = Some (mk_ndarray [List.length (t_group_index t); 1] out) /\
          List.length out = List.length (t_group_index t) /\
          forall i, i < List.length (t_group_index t) ->
            nth i out (zero R)
            = fmul R (nth (Z.to_nat (nth i (t_group_index t) 0%Z)) coef (zero R))
                     (nth i pv (zero R)).
Proof.
  intros H. destruct (build_predictor _ _ _ _ H) as (coefs & Hall & Hmu).
  exists coefs. split; [exact Hall|]. split; [exact Hmu|].
  intros t c Hin Hr.
  assert (Hb : term_built R sp (if do_reset then [] else model self)
                 (model self') t c).
  { clear - Hall Hin. induction Hall as [|t0 c0 ts cs H0 _ IH]; simpl in Hin;
      [contradiction|].
    destruct Hin as [[= -> ->]|Hin]; [exact H0 | exact (IH Hin)]. }
  pose proof (term_built_name _ _ _ _ _ Hb) as Hname.
  split.
  - unfold contribution. now rewrite Hr, Hname.
  - intros env coef pv Henv Hidx Hp Hlen.
    exists (map2 (fmul R)
              (map (fun z => nth (Z.to_nat z) coef (zero R)) (t_group_index t))
              pv).
    split; [|split].
    + apply eval_random_contribution; try assumption.
      rewrite Hname. exact Henv.
    + rewrite map2_length, length_map. lia.
    + intros i Hi.
      rewrite (map2_nth (fmul R) (zero R) (zero R) (zero R))
        by (rewrite ?length_map; lia).
      f_equal.
      exact (nth_map_in_range (fun z => nth (Z.to_nat z) coef (zero R))
               0%Z (zero R) (t_group_index t) i Hi).
Qed.

(** * Further properties of the builder *)

Lemma append_empty_r (s : string) : (s ++ "")%string = s.
Proof. induction s as [|c s IH]; simpl; [reflexivity | now rewrite IH]. Qed.

Lemma append_assoc (a b c : string) :
  ((a ++ b) ++ c)%string = (a ++ (b ++ c))%string.
Proof. induction a as [|x a IH]; simpl; [reflexivity | now rewrite IH]. Qed.

Section Outcomes.

Context {S : Type}.
Variable O : S -> S -> Prop.
Variable E : Exn -> Prop.
Hypothesis O_refl : forall s, O s s.
Hypothesis O_trans : forall s1 s2 s3, O s1 s2 -> O s2 s3 -> O s1 s3.

Lemma meets_ret {A : Type} (a : A) : meets O E (@ret rt_exn S A a).
Proof.
  intros s res s' H. injection H as <- <-. split; [apply O_refl|].
  intros e He. discriminate.
Qed.

Lemma meets_lift_result {A : Type} (r : Exn + A) :
  (forall e, r = inl e -> E e) -> meets O E (@lift_result rt_exn S A r).
Proof.
  intros Hr s res s' H. injection H as <- <-. split; [apply O_refl | exact Hr].
Qed.

Lemma meets_bind {A B : Type} (c : @M rt_exn S A) (k : A -> @M rt_exn S B) :
  meets O E c -> (forall a, meets O E (k a)) -> meets O E (bind c k).
Proof.
  intros Hc Hk s res s' H. unfold bind in H.
  destruct (c s) as [[e|a] s1] eqn:Hcs.
  - injection H as <- <-. destruct (Hc _ _ _ Hcs) as [H1 H2].
    split; [exact H1|]. intros e' [= <-]. now apply H2.
  - destruct (Hc _ _ _ Hcs) as [H1 _]. destruct (Hk a _ _ _ H) as [H2 H3].
    split; [eapply O_trans; eassumption | exact H3].
Qed.

End Outcomes.

Lemma meets_weaken {S A : Type} (O O' : S -> S -> Prop) (E E' : Exn -> Prop)
  (c : @M rt_exn S A) :
  (forall s s', O s s' -> O' s s') -> (forall e, E e -> E' e) ->
  meets O E c -> meets O' E' c.
Proof.
  intros HO HE Hc s res s' H. destruct (Hc _ _ _ H) as [H1 H2].
  split; [exact (HO _ _ H1) | intros e He; exact (HE _ (H2 e He))].
Qed.

Lemma meets_map_items (O : Graph -> Graph -> Prop) (E : Exn -> Prop)
  (f : string -> Value -> @M rt_exn Graph Value) (kw : Kwargs) :
  (forall g, O g g) ->
  (forall g1 g2 g3, O g1 g2 -> O g2 g3 -> O g1 g3) ->
  Forall (fun kv => meets O E (f (fst kv) (snd kv))) kw ->
  meets O E (map_items f kw).
Proof.
  intros Hrefl Htrans. induction 1 as [|[k v] rest Hhd _ IH]; simpl.
  - now apply meets_ret.
  - apply meets_bind; [assumption | exact Hhd |]. intros v'.
    apply meets_bind; [assumption | exact IH |]. intros rest'.
    now apply meets_ret.
Qed.

Lemma declares_under_refl (label : string) (g : Graph) :
  declares_under label g g.
Proof. exists []. split; [now rewrite app_nil_r | constructor]. Qed.

Lemma declares_under_trans (label : string) (g1 g2 g3 : Graph) :
  declares_under label g1 g2 -> declares_under label g2 g3 ->
  declares_under label g1 g3.
Proof.
  intros (e1 & -> & H1) (e2 & -> & H2). exists (e1 ++ e2).
  split; [now rewrite app_assoc | now apply Forall_app].
Qed.

Lemma declares_under_nested (label key : string) (g g' : Graph) :
  declares_under (label ++ "_" ++ key) g g' -> declares_under label g g'.
Proof.
  intros (ext & -> & H). exists ext. split; [reflexivity|].
  eapply Forall_impl; [|exact H]. intros n [suffix Hn].
  exists ("_" ++ key ++ suffix)%string.
  now rewrite Hn, !append_assoc.
Qed.

Lemma declares_under_one (label suffix : string) (g : Graph) (n : node) :
  node_name n = (label ++ suffix)%string -> declares_under label g (g ++ [n]).
Proof.
  intros Hn. exists [n]. split; [reflexivity|]. constructor; [|constructor].
  now exists suffix.
Qed.

Lemma meets_declare (label suffix : string) (d : callable) (kw : Kwargs) :
  meets (declares_under label) builder_error
    (declare R d (label ++ suffix) kw).
Proof.
  intros g res g' H.
  apply declare_cases in H as [(e & _ & -> & ->)|(c & _ & -> & ->)].
  - split; [apply declares_under_refl|]. intros e' [= <-].
    right. right. right. now exists e.
  - split; [now apply declares_under_one with suffix|]. intros e' He'.
    discriminate.
Qed.

Lemma meets_construct (nc : bool) (label : string) (d : callable)
  (kw : Kwargs) :
  meets (declares_under label) builder_error (construct R nc label d kw).
Proof.
  unfold construct. destruct (noncentered_cond nc kw) eqn:Hc.
  - apply noncentered_cond_iff in Hc as (_ & _ & _ & sname & Hsig).
    unfold noncentered_branch. rewrite Hsig.
    destruct (lookup "shape" kw) as [shp|].
    + apply meets_bind.
      * apply declares_under_trans.
      * apply meets_declare.
      * intros off g res g' H.
        apply Deterministic_cases in H as [(e & _ & -> & ->)|(_ & -> & ->)].
        -- split; [apply declares_under_refl|]. intros e' [= <-].
           right. right. right. now exists e.
        -- split; [|intros e' He'; discriminate].
           apply declares_under_one with "". simpl.
           now rewrite append_empty_r.
    + intros g res g' H. injection H as <- <-.
      split; [apply declares_under_refl|]. intros e [= <-]. right. now left.
  - rewrite <- (append_empty_r label) at 2. apply meets_declare.
Qed.

Lemma meets_body (nc : bool) (label : string) (dist : dist_id)
  (expand : @M rt_exn Graph Kwargs) :
  meets (declares_under label) builder_error expand ->
  meets (declares_under label) builder_error
    (build_dist_body R nc label dist expand).
Proof.
  intros Hexp. unfold build_dist_body.
  apply meets_bind; [apply declares_under_trans | |].
  - apply meets_lift_result; [apply declares_under_refl|].
    intros e He. destruct dist as [s|c]; unfold resolve_dist in He;
      [|discriminate].
    destruct (pm_getattr R s); [discriminate|].
    destruct (lookup s (dists R)); [discriminate|].
    injection He as <-. left. now exists s.
  - intros d. apply meets_bind; [apply declares_under_trans | exact Hexp |].
    intros kw'. apply meets_construct.
Qed.

Lemma meets_expand_args (v : Value) :
  forall nc label key,
    meets (declares_under label) builder_error (_expand_args R nc label key v).
Proof.
  induction v as [z|x|a|e|r|name args IH] using value_nested_ind;
    intros nc label key;
    try (apply meets_ret; apply declares_under_refl).
  simpl.
  apply meets_weaken with (O := declares_under (label ++ "_" ++ key))
                          (E := builder_error);
    [apply declares_under_nested | auto |].
  apply meets_bind; [apply declares_under_trans | |].
  - apply meets_lift_result; [apply declares_under_refl|].
    intros e He. unfold bind_call in He.
    destruct (existsb _ positional); [|discriminate].
    injection He as <-. right. right. now left.
  - intros _. apply meets_bind; [apply declares_under_trans | |].
    + apply meets_body.
      apply meets_map_items;
        [apply declares_under_refl | apply declares_under_trans |].
      eapply Forall_impl; [|exact IH]. intros [k x] Hx. exact (Hx _ _ _).
    + intros r. apply meets_ret. apply declares_under_refl.
Qed.

Lemma meets_build_dist (nc : bool) (label : string) (dist : dist_id)
  (kw : Kwargs) :
  meets (declares_under label) builder_error (_build_dist R nc label dist kw).
Proof.
  unfold _build_dist. apply meets_body. unfold expand_kwargs.
  apply meets_map_items;
    [apply declares_under_refl | apply declares_under_trans |].
  apply Forall_forall. intros [k x] _. apply meets_expand_args.
Qed.

(** X1.  Whatever a call of the builder for [label] declares, in success
    or failure, is appended to the graph and carries a name that starts
    with [label]: the variable itself, its offset, and the hyperpriors
    below it. *)
Theorem builder_names_start_with_label (nc : bool) (label : string)
  (dist : dist_id) (kw : Kwargs) (g : Graph) :
  exists ext,
    snd (_build_dist R nc label dist kw g) = g ++ ext /\
    Forall (fun n => exists suffix, node_name n = (label ++ suffix)%string) ext.
Proof.
  destruct (_build_dist R nc label dist kw g) as [res g'] eqn:H.
  exact (proj1 (meets_build_dist nc label dist kw _ _ _ H)).
Qed.

(** X2.  The builder ends in no exception of its own other than the
    "not found" [ValueError] for some identifier of the prior tree, the
    [KeyError] for a missing shape in the non-centered branch and the
    [TypeError] of a keyword clash at a recursive call; every other
    exception is the runtime's. *)
Theorem builder_exceptions (nc : bool) (label : string) (dist : dist_id)
  (kw : Kwargs) (g : Graph) (e : Exn) :
  fst (_build_dist R nc label dist kw g) = inl e ->
  (exists s, e = ValueError (not_found_msg s)) \/
  e = KeyError "shape" \/
  e = TypeError "_build_dist() got multiple values for argument" \/
  exists r, e = Propagated r.
Proof.
  destruct (_build_dist R nc label dist kw g) as [res g'] eqn:H. simpl.
  exact (proj2 (meets_build_dist nc label dist kw _ _ _ H) e).
Qed.

(** ** Centered mode: one variable per prior *)

Lemma map_items_count (f : string -> Value -> @M rt_exn Graph Value)
  (cnt : Value -> nat) (kw : Kwargs) :
  Forall (fun kv => forall g v' g',
            f (fst kv) (snd kv) g = (inr v', g') ->
            exists ext, g' = g ++ ext /\ List.length ext = cnt (snd kv)
                        /\ forallb is_dist_node ext = true) kw ->
  forall g kw' g',
    map_items f kw g = (inr kw', g') ->
    exists ext,
      g' = g ++ ext /\
      List.length ext
      = list_sum (map (fun kv => match kv with (_, x) => cnt x end) kw) /\
      forallb is_dist_node ext = true.
Proof.
  induction 1 as [|[k v] rest Hhd _ IH]; intros g kw' g' H; simpl in H.
  - injection H as _ <-. exists []. now rewrite app_nil_r.
  - unfold bind in H. destruct (f k v g) as [[e|v'] g1] eqn:Hf; [discriminate|].
    destruct (map_items f rest g1) as [[e|rest'] g2] eqn:Hm; [discriminate|].
    injection H as _ <-.
    destruct (Hhd _ _ _ Hf) as (e1 & -> & L1 & D1).
    destruct (IH _ _ _ Hm) as (e2 & -> & L2 & D2).
    exists (e1 ++ e2). rewrite app_assoc, length_app, forallb_app, D1, D2.
    simpl in *. repeat split. lia.
Qed.

Lemma construct_centered (label : string) (d : callable) (kw : Kwargs)
  (g : Graph) (r : rv) (g' : Graph) :
  construct R false label d kw g = (inr r, g') ->
  exists c, r = mk_rv c label /\ g' = g ++ [NDist label d kw c].
Proof.
  intros H.
  apply construct_ok in H as [_ [(_ & c & Hr & Hg)|(Hc & _)]];
    [now exists c | discriminate].
Qed.

Lemma _expand_args_centered_count (v : Value) :
  forall label key g v' g',
    _expand_args R false label key v g = (inr v', g') ->
    exists ext, g' = g ++ ext /\ List.length ext = priors_in_value v
                /\ forallb is_dist_node ext = true.
Proof.
  induction v as [z|x|a|e|r|name args IH] using value_nested_ind;
    intros label key g v' g' H;
    try (simpl in H; injection H as _ <-; exists []; now rewrite app_nil_r).
  rewrite _expand_args_prior in H. unfold bind in H.
  destruct (call_build_dist R false _ name args g) as [[e|r] g1] eqn:Hcall;
    [discriminate|].
  injection H as _ <-.
  destruct (call_build_dist_ok _ _ _ _ _ _ _ Hcall) as [_ Hb].
  destruct (_build_dist_ok _ _ _ _ _ _ _ Hb) as (_ & d & kw' & g2 & _ & He & Hc).
  unfold expand_kwargs in He.
  assert (HF : Forall (fun kv => forall g v' g',
                  _expand_args R false (label ++ "_" ++ key) (fst kv) (snd kv) g
                  = (inr v', g') ->
                  exists ext, g' = g ++ ext
                              /\ List.length ext = priors_in_value (snd kv)
                              /\ forallb is_dist_node ext = true) args).
  { eapply Forall_impl; [|exact IH]. intros [k x] Hx g0 v0 g0' H0.
    exact (Hx _ _ _ _ _ H0). }
  destruct (map_items_count _ _ _ HF _ _ _ He) as (e1 & -> & L1 & D1).
  destruct (construct_centered _ _ _ _ _ _ Hc) as (c & _ & ->).
  exists (e1 ++ [NDist (label ++ "_" ++ key) d kw' c]).
  rewrite app_assoc, length_app, forallb_app, D1. simpl.
  repeat split. rewrite L1. lia.
Qed.

(** X3.  With non-centered mode off, a successful call of the builder
    declares exactly one variable for the prior itself and one for every
    prior nested in its arguments, at any depth, each by a call of a
    distribution: no offset and no deterministic variable. *)
Theorem centered_one_variable_per_prior (label : string) (dist : dist_id)
  (kw : Kwargs) (g : Graph) (r : rv) (g' : Graph) :
  _build_dist R false label dist kw g = (inr r, g') ->
  exists ext,
    g' = g ++ ext /\
    List.length ext = S (priors_in kw) /\
    forallb is_dist_node ext = true.
Proof.
  intros H.
  destruct (_build_dist_ok _ _ _ _ _ _ _ H) as (_ & d & kw' & g1 & _ & He & Hc).
  unfold expand_kwargs in He.
  assert (HF : Forall (fun kv => forall g v' g',
                  _expand_args R false label (fst kv) (snd kv) g = (inr v', g') ->
                  exists ext, g' = g ++ ext
                              /\ List.length ext = priors_in_value (snd kv)
                              /\ forallb is_dist_node ext = true) kw).
  { apply Forall_forall. intros [k x] _ g0 v0 g0' H0.
    exact (_expand_args_centered_count _ _ _ _ _ _ H0). }
  destruct (map_items_count _ _ _ HF _ _ _ He) as (e1 & -> & L1 & D1).
  destruct (construct_centered _ _ _ _ _ _ Hc) as (c & _ & ->).
  exists (e1 ++ [NDist label d kw' c]).
  rewrite app_assoc, length_app, forallb_app, D1. simpl.
  repeat split. unfold priors_in. rewrite L1. lia.
Qed.

(** * Further properties of [build] *)

Lemma dict_set_lookup_same {A : Type} (k : string) (v : A)
  (d : list (string * A)) :
  lookup k (dict_set k v d) = Some v.
Proof.
  induction d as [|[k' v'] d IH]; simpl.
  - now rewrite String.eqb_refl.
  - destruct (String.eqb k k') eqn:Hk; simpl; rewrite Hk; [reflexivity | exact IH].
Qed.

Lemma dict_set_lookup_other {A : Type} (k k0 : string) (v : A)
  (d : list (string * A)) :
  k0 <> k -> lookup k0 (dict_set k v d) = lookup k0 d.
Proof.
  intros Hne. induction d as [|[k' v'] d IH]; simpl.
  - apply String.eqb_neq in Hne. now rewrite Hne.
  - destruct (String.eqb k k') eqn:Hk; simpl.
    + apply String.eqb_eq in Hk. subst k'.
      apply String.eqb_neq in Hne. now rewrite Hne.
    + destruct (String.eqb k0 k'); [reflexivity | exact IH].
Qed.

Lemma lookup_not_in_keys {A : Type} (k : string) (d : list (string * A)) :
  lookup k d = None <-> ~ In k (keys d).
Proof.
  unfold keys. induction d as [|[k' v'] d IH]; simpl.
  - split; [intros _ [] | reflexivity].
  - destruct (String.eqb k k') eqn:Hk.
    + apply String.eqb_eq in Hk. subst k'. split; [discriminate|].
      intros H. exfalso. apply H. now left.
    + apply String.eqb_neq in Hk. rewrite IH. split.
      * intros H [Heq|Hin]; [congruence | contradiction].
      * intros H Hin. apply H. now right.
Qed.

(** Expansion keeps, under its key, a value that is not a nested prior. *)
Lemma expand_kwargs_lookup_kept (nc : bool) (label k : string) (v : Value)
  (kw : Kwargs) :
  (forall name args, v <> VPrior name args) ->
  forall g kw' g1,
    expand_kwargs R nc label kw g = (inr kw', g1) ->
    lookup k kw = Some v -> lookup k kw' = Some v.
Proof.
  intros Hv. induction kw as [|[k0 v0] rest IH]; intros g kw' g1 H Hl;
    [discriminate|].
  unfold expand_kwargs in H. simpl in H. unfold bind in H.
  destruct (_expand_args R nc label k0 v0 g) as [[e|v0'] g2] eqn:Hv0;
    [discriminate|].
  fold (expand_kwargs R nc label rest) in H.
  destruct (expand_kwargs R nc label rest g2) as [[e|rest'] g3] eqn:Hrest;
    [discriminate|].
  injection H as <- _. simpl in *.
  destruct (String.eqb k k0).
  - injection Hl as ->. rewrite (_expand_args_other nc label k0 v g Hv) in Hv0.
    now injection Hv0 as <- _.
  - exact (IH _ _ _ Hrest Hl).
Qed.

(** What a successful [build] went through after the loop. *)
Lemma build_ok (sp : model_spec) (do_reset : bool)
  (self self' : @backend F callable trace advi) :
  build R sp do_reset self = (inr tt, self') ->
  exists link_f m r g2,
    resolve_link (link (spec_family sp)) = @inr Exn _ link_f /\
    mu self' = Some m /\
    spec self' = Some (with_response_args sp (response_args sp link_f m)) /\
    extends (if do_reset then [] else model self) g2 /\
    call_build_dist R (noncentered sp) (y_name (y sp))
      (f_prior_name (spec_family sp)) (response_args sp link_f m) g2
    = (inr r, model self').
Proof.
  unfold build. intros H. unfold bind at 1 in H.
  assert (H0 : exists s0,
             (if do_reset then reset else @ret rt_exn _ _ tt) self = (inr tt, s0)
             /\ model s0 = (if do_reset then [] else model self)).
  { destruct do_reset; eexists; simpl; now repeat split. }
  destruct H0 as (s0 & E0 & M0). rewrite E0 in H. clear E0.
  unfold bind at 1, set_mu at 1 in H.
  match type of H with
  | context [bind (for_each _ _) _ ?s] => set (s1 := s) in H
  end.
  assert (M1 : model s1 = model s0) by reflexivity.
  assert (U1 : mu s1 = Some (EConst (mk_ndarray [] [zero R]))) by reflexivity.
  clearbody s1.
  unfold bind at 1 in H.
  destruct (for_each (build_term R sp) (terms sp) s1) as [[e|[]] s2] eqn:Hloop;
    [discriminate|].
  destruct (for_each_terms _ _ _ _ _ U1 Hloop) as (Hext & coefs & _ & Hmu2).
  unfold bind at 1, lift_result at 1 in H.
  destruct (resolve_link (link (spec_family sp))) as [e|link_f]; [discriminate|].
  unfold bind at 1, get_mu at 1 in H. rewrite Hmu2 in H.
  unfold bind in H.
  match type of H with
  | context [in_model ?c s2] =>
      pose proof (in_model_frame c s2) as Hi;
      destruct (in_model c s2) as [[e|r] s3]; [discriminate|];
      destruct (c (model s2)) as [res g3] eqn:Hcall
  end.
  simpl in Hi. destruct Hi as (Hres & Hm3 & Hmu3 & _).
  unfold set_spec in H. injection H as <-. simpl.
  eexists link_f, _, r, (model s2). repeat split.
  - congruence.
  - rewrite <- M0, <- M1. exact Hext.
  - subst res. rewrite Hm3. exact Hcall.
Qed.

(** X4.  In a successful [build] the response is the last variable
    declared, it is declared by a direct call of the resolved
    distribution with the observed data under ["observed"], and the
    non-centered branch is not taken for it, whatever the mode. *)
Theorem response_is_declared_directly (sp : model_spec) (do_reset : bool)
  (self self' : @backend F callable trace advi) :
  build R sp do_reset self = (inr tt, self') ->
  exists g1 d kw' c,
    model self' = g1 ++ [NDist (y_name (y sp)) d kw' c] /\
    resolve_dist R (dists R) (f_prior_name (spec_family sp)) = inr d /\
    lookup "observed" kw' = Some (VArray (y_data (y sp))) /\
    noncentered_cond (noncentered sp) kw' = false.
Proof.
  intros H.
  destruct (build_ok _ _ _ _ H) as (link_f & m & r & g2 & _ & _ & _ & _ & Hcall).
  destruct (call_build_dist_ok _ _ _ _ _ _ _ Hcall) as [_ Hb].
  destruct (_build_dist_ok _ _ _ _ _ _ _ Hb) as (_ & d & kw' & g1 & Hd & He & Hc).
  assert (Hobs : lookup "observed" kw' = Some (VArray (y_data (y sp)))).
  { eapply expand_kwargs_lookup_kept; [discriminate | exact He |].
    unfold response_args. apply dict_set_lookup_same. }
  assert (Hcond : noncentered_cond (noncentered sp) kw' = false).
  { unfold noncentered_cond, mem. rewrite Hobs. simpl.
    now rewrite andb_false_r. }
  rewrite (construct_direct _ _ _ _ Hcond) in Hc.
  apply declare_cases in Hc as [(e & _ & Hr & _)|(c & _ & _ & ->)];
    [discriminate|].
  now exists g1, d, kw', c.
Qed.

Lemma build_spec_on_failure (sp : model_spec) (do_reset : bool)
  (self : @backend F callable trace advi) (e : Exn)
  (self' : @backend F callable trace advi) :
  build R sp do_reset self = (inl e, self') -> spec self' = spec self.
Proof.
  unfold build. intros H. unfold bind at 1 in H.
  assert (H0 : exists s0,
             (if do_reset then reset else @ret rt_exn _ _ tt) self = (inr tt, s0)
             /\ spec s0 = spec self).
  { destruct do_reset; eexists; simpl; now repeat split. }
  destruct H0 as (s0 & E0 & S0). rewrite E0 in H. clear E0.
  unfold bind at 1, set_mu at 1 in H.
  match type of H with
  | context [bind (for_each _ _) _ ?s] => set (s1 := s) in H
  end.
  assert (S1 : spec s1 = spec self) by (subst s1; simpl; congruence).
  clearbody s1. clear S0.
  unfold bind at 1 in H.
  pose proof (for_each_frame sp (terms sp) s1) as Hf.
  destruct (for_each (build_term R sp) (terms sp) s1) as [[e1|[]] s2];
    simpl in Hf; destruct Hf as (S2 & _);
    [injection H as _ <-; congruence|].
  unfold bind at 1, lift_result at 1 in H.
  destruct (resolve_link (link (spec_family sp))) as [e1|link_f];
    [injection H as _ <-; congruence|].
  unfold bind at 1, get_mu at 1 in H.
  destruct (mu s2) as [m|]; [|injection H as _ <-; congruence].
  unfold bind in H.
  match type of H with
  | context [in_model ?c s2] => pose proof (in_model_frame c s2) as Hi;
      destruct (in_model c s2) as [[e1|r] s3]
  end; simpl in Hi; destruct Hi as (_ & _ & _ & _ & S3 & _).
  - injection H as _ <-. congruence.
  - discriminate.
Qed.

(** X5.  [self.spec] is assigned only when [build] succeeds.  It then
    holds the specification with the response prior's arguments as lines
    112-113 leave them: the observed data under ["observed"] and, unless
    the parent parameter is itself called ["observed"], the link applied
    to the final predictor under the parent parameter's name.  When
    [build] ends in an exception, [self.spec] is what it was. *)
Theorem build_stores_spec (sp : model_spec) (do_reset : bool)
  (self : @backend F callable trace advi) :
  (forall e self',
     build R sp do_reset self = (inl e, self') -> spec self' = spec self) /\
  (forall self',
     build R sp do_reset self = (inr tt, self') ->
     exists link_f m args,
       resolve_link (link (spec_family sp)) = @inr Exn _ link_f /\
       mu self' = Some m /\
       spec self' = Some (with_response_args sp args) /\
       lookup "observed" args = Some (VArray (y_data (y sp))) /\
       (parent (spec_family sp) <> "observed" ->
        lookup (parent (spec_family sp)) args = Some (VExpr (link_f m))) /\
       (forall k, k <> "observed" -> k <> parent (spec_family sp) ->
        lookup k args = lookup k (f_prior_args (spec_family sp)))).
Proof.
  split.
  - intros e self' H. exact (build_spec_on_failure _ _ _ _ _ H).
  - intros self' H.
    destruct (build_ok _ _ _ _ H) as (link_f & m & r & g2 & Hl & Hm & Hs & _).
    exists link_f, m, (response_args sp link_f m).
    repeat split; try assumption; unfold response_args.
    + apply dict_set_lookup_same.
    + intros Hp. rewrite dict_set_lookup_other by assumption.
      apply dict_set_lookup_same.
    + intros k Hk1 Hk2.
      now rewrite !dict_set_lookup_other by assumption.
Qed.

(** X6.  A family whose link is a name outside the registry (identity,
    logit, inverse, inverse_squared, log) makes [build] end in an
    exception, and [self.spec] is not assigned. *)
Theorem build_needs_registered_link (sp : model_spec) (do_reset : bool)
  (self : @backend F callable trace advi) (s : string) :
  link (spec_family sp) = LinkName s ->
  ~ In s (@link_names F callable) ->
  exists e,
    fst (build R sp do_reset self) = inl e /\
    spec (snd (build R sp do_reset self)) = spec self.
Proof.
  intros Hlink Hs.
  destruct (build R sp do_reset self) as [[e|[]] self'] eqn:H.
  - exists e. split; [reflexivity|]. exact (build_spec_on_failure _ _ _ _ _ H).
  - exfalso.
    destruct (build_ok _ _ _ _ H) as (link_f & _ & _ & _ & Hl & _).
    rewrite Hlink in Hl. unfold resolve_link in Hl.
    assert (Hn : lookup s (@links F callable) = None)
      by (apply lookup_not_in_keys; exact Hs).
    rewrite Hn in Hl. discriminate.
Qed.

(** ** What a term must offer *)

Lemma build_term_admissible (sp : model_spec) (t : term)
  (self self' : @backend F callable trace advi) :
  build_term R sp t self = (inr tt, self') -> term_admissible t.
Proof.
  unfold build_term, bind, lift_result, n_cols_of, term_kwargs. intros H.
  destruct (nth_error (shape (t_data t)) 1) as [k|] eqn:Hk; [|discriminate].
  destruct (mem "shape" (t_prior_args t)) eqn:Hs; [discriminate|].
  split; [exact Hs | now exists k].
Qed.

Lemma for_each_admissible (sp : model_spec) (ts : list term) :
  forall self self' : @backend F callable trace advi,
    for_each (build_term R sp) ts self = (inr tt, self') ->
    Forall term_admissible ts.
Proof.
  induction ts as [|t rest IH]; intros self self' H; [constructor|].
  simpl in H. unfold bind in H.
  destruct (build_term R sp t self) as [[e|[]] s1] eqn:Ht; [discriminate|].
  constructor; [exact (build_term_admissible _ _ _ _ Ht) | exact (IH _ _ H)].
Qed.

(** X7.  The loop body refuses a term before the builder is called, and
    leaves the back-end as it was, when the data has no second axis
    ([IndexError]) or when the prior's own arguments already contain
    ["shape"] ([TypeError], a keyword given twice).  So [build] succeeds
    only on specifications all of whose terms have data with a second axis
    and priors without a ["shape"] argument. *)
Theorem terms_must_be_admissible (sp : model_spec) :
  (forall t (self : @backend F callable trace advi),
     nth_error (shape (t_data t)) 1 = None ->
     build_term R sp t self
     = (inl (IndexError "tuple index out of range"), self)) /\
  (forall t (self : @backend F callable trace advi) k,
     nth_error (shape (t_data t)) 1 = Some k ->
     mem "shape" (t_prior_args t) = true ->
     build_term R sp t self
     = (inl (TypeError "got multiple values for keyword argument 'shape'"),
        self)) /\
  (forall do_reset (self self' : @backend F callable trace advi),
     build R sp do_reset self = (inr tt, self') ->
     Forall term_admissible (terms sp)).
Proof.
  split; [|split].
  - intros t self Hk.
    unfold build_term, bind, lift_result, n_cols_of. now rewrite Hk.
  - intros t self k Hk Hs.
    unfold build_term, bind, lift_result, n_cols_of, term_kwargs.
    now rewrite Hk, Hs.
  - intros do_reset self self' H. unfold build in H. unfold bind at 1 in H.
    destruct ((if do_reset then reset else @ret rt_exn _ _ tt) self)
      as [[e|[]] s0]; [discriminate|].
    unfold bind at 1, set_mu at 1 in H. unfold bind at 1 in H.
    match type of H with
    | context [for_each ?f ?l ?s] =>
        destruct (for_each f l s) as [[e|[]] s2] eqn:Hloop; [discriminate|]
    end.
    exact (for_each_admissible _ _ _ _ Hloop).
Qed.

(** ** The graph under [build] *)

Lemma meets_in_model {A : Type} (E : Exn -> Prop) (c : @M rt_exn Graph A) :
  meets extends E c ->
  meets (fun s s' : @backend F callable trace advi =>
           extends (model s) (model s')) E (in_model c).
Proof.
  intros Hc s res s' H. unfold in_model in H.
  destruct (c (model s)) as [r g] eqn:Hcs. injection H as <- <-. simpl.
  exact (Hc _ _ _ Hcs).
Qed.

Lemma meets_call_build_dist (nc : bool) (label : string) (dist : dist_id)
  (kw : Kwargs) :
  meets extends (fun _ => True) (call_build_dist R nc label dist kw).
Proof.
  intros g res g' H. split; [|trivial].
  unfold call_build_dist, bind, lift_result in H.
  destruct (bind_call kw) as [e|[]].
  - injection H as _ <-. apply extends_refl.
  - exact (_build_dist_extends _ _ _ _ _ _ _ H).
Qed.

Lemma meets_build_term (sp : model_spec) (t : term) :
  meets (fun s s' : @backend F callable trace advi =>
           extends (model s) (model s')) (fun _ => True) (build_term R sp t).
Proof.
  assert (Hrefl : forall s : @backend F callable trace advi,
             extends (model s) (model s)) by (intros; apply extends_refl).
  assert (Htrans : forall s1 s2 s3 : @backend F callable trace advi,
             extends (model s1) (model s2) -> extends (model s2) (model s3) ->
             extends (model s1) (model s3))
    by (intros; eapply extends_trans; eassumption).
  unfold build_term.
  apply meets_bind; [assumption | now apply meets_lift_result |]. intros k.
  apply meets_bind; [assumption | now apply meets_lift_result |]. intros kw.
  apply meets_bind; [assumption | |].
  - apply meets_in_model. apply meets_call_build_dist.
  - intros coef. apply meets_bind; [assumption | |].
    + intros s res s' H. unfold get_mu in H.
      destruct (mu s); injection H as _ <-; split; trivial; apply extends_refl.
    + intros m s res s' H. injection H as _ <-. simpl.
      split; [apply extends_refl | trivial].
Qed.

Lemma meets_for_each (sp : model_spec) (ts : list term) :
  meets (fun s s' : @backend F callable trace advi =>
           extends (model s) (model s')) (fun _ => True)
        (for_each (build_term R sp) ts).
Proof.
  induction ts as [|t rest IH]; simpl.
  - apply meets_ret. intros. apply extends_refl.
  - apply meets_bind.
    + intros. eapply extends_trans; eassumption.
    + apply meets_build_term.
    + intros _. exact IH.
Qed.

(** X8.  With reset disabled [build] keeps every variable that was in the
    model: in success and in failure the graph it leaves is the graph it
    found, followed by what it declared. *)
Theorem build_without_reset_appends (sp : model_spec)
  (self : @backend F callable trace advi) :
  exists ext, model (snd (build R sp false self)) = model self ++ ext.
Proof.
  destruct (build R sp false self) as [res self'] eqn:H. simpl.
  assert (Hrefl : forall s : @backend F callable trace advi,
             extends (model s) (model s)) by (intros; apply extends_refl).
  assert (Htrans : forall s1 s2 s3 : @backend F callable trace advi,
             extends (model s1) (model s2) -> extends (model s2) (model s3) ->
             extends (model s1) (model s3))
    by (intros; eapply extends_trans; eassumption).
  assert (Hm : meets (fun s s' : @backend F callable trace advi =>
                        extends (model s) (model s')) (fun _ => True)
                 (build R sp false)).
  { unfold build.
    apply meets_bind; [assumption | now apply meets_ret |]. intros _.
    apply meets_bind; [assumption | |].
    { intros s res0 s' H0. injection H0 as _ <-. simpl.
      split; [apply extends_refl | trivial]. }
    intros _. apply meets_bind; [assumption | apply meets_for_each |].
    intros _. apply meets_bind; [assumption | now apply meets_lift_result |].
    intros link_f. apply meets_bind; [assumption | |].
    { intros s res0 s' H0. unfold get_mu in H0.
      destruct (mu s); injection H0 as _ <-; split; trivial;
        apply extends_refl. }
    intros m. apply meets_bind; [assumption | |].
    { apply meets_in_model. apply meets_call_build_dist. }
    intros r s res0 s' H0. injection H0 as _ <-. simpl.
    split; [apply extends_refl | trivial]. }
  destruct (Hm _ _ _ H) as [[ext Hext] _]. now exists ext.
Qed.

(** ** [build] reads the back-end only through its graph and predictor *)

Ltac core_goal :=
  unfold same_core in *; simpl;
  repeat match goal with H : _ /\ _ |- _ => destruct H end;
  repeat split; try reflexivity; try assumption; try congruence.

Lemma same_core_refl (s : @backend F callable trace advi) : same_core s s.
Proof. core_goal. Qed.

Lemma respects_ret {A : Type} (a : A) :
  respects_core (@ret rt_exn (@backend F callable trace advi) A a).
Proof. intros s1 s2 H. split; [reflexivity | exact H]. Qed.

Lemma respects_lift_result {A : Type} (r : Exn + A) :
  respects_core (@lift_result rt_exn (@backend F callable trace advi) A r).
Proof. intros s1 s2 H. split; [reflexivity | exact H]. Qed.

Lemma respects_bind {A B : Type}
  (c : @M rt_exn (@backend F callable trace advi) A)
  (k : A -> @M rt_exn (@backend F callable trace advi) B) :
  respects_core c -> (forall a, respects_core (k a)) ->
  respects_core (bind c k).
Proof.
  intros Hc Hk s1 s2 H. unfold bind. specialize (Hc s1 s2 H).
  destruct (c s1) as [[e1|a1] t1], (c s2) as [[e2|a2] t2]; simpl in Hc;
    destruct Hc as [Hr Hs]; try discriminate.
  - simpl. split; [congruence | exact Hs].
  - injection Hr as ->. exact (Hk a2 t1 t2 Hs).
Qed.

Lemma respects_in_model {A : Type} (c : @M rt_exn Graph A) :
  respects_core (@in_model F callable rt_exn trace advi A c).
Proof.
  intros s1 s2 (Hm & Hu & Hp). unfold in_model. rewrite Hm.
  destruct (c (model s2)) as [r g]. simpl. split; [reflexivity | core_goal].
Qed.

Lemma respects_build_term (sp : model_spec) (t : term) :
  respects_core (build_term R sp t).
Proof.
  unfold build_term.
  apply respects_bind; [apply respects_lift_result|]. intros k.
  apply respects_bind; [apply respects_lift_result|]. intros kw.
  apply respects_bind; [apply respects_in_model|]. intros coef.
  apply respects_bind.
  - intros s1 s2 H. unfold get_mu. rewrite (proj1 (proj2 H)).
    destruct (mu s2); simpl; split; try reflexivity; exact H.
  - intros m s1 s2 (Hm & Hu & Hp). unfold set_mu. simpl.
    split; [reflexivity | core_goal].
Qed.

Lemma respects_for_each (sp : model_spec) (ts : list term) :
  respects_core (for_each (build_term R sp) ts).
Proof.
  induction ts as [|t rest IH]; simpl; [apply respects_ret|].
  apply respects_bind; [apply respects_build_term | intros _; exact IH].
Qed.

Lemma respects_build_after_reset (sp : model_spec) :
  respects_core
    (bind (set_mu (EConst (mk_ndarray [] [zero R])))
       (fun _ =>
          bind (for_each (build_term R sp) (terms sp))
            (fun _ =>
               bind (lift_result (resolve_link (link (spec_family sp))))
                 (fun link_f =>
                    bind get_mu
                      (fun m =>
                         bind (in_model
                                 (call_build_dist R (noncentered sp)
                                    (y_name (y sp))
                                    (f_prior_name (spec_family sp))
                                    (response_args sp link_f m)))
                           (fun _ =>
                              set_spec
                                (with_response_args sp
                                   (response_args sp link_f m)))))))).
Proof.
  apply respects_bind.
  { intros s1 s2 (Hm & Hu & Hp). unfold set_mu. simpl.
    split; [reflexivity | core_goal]. }
  intros _. apply respects_bind; [apply respects_for_each|].
  intros _. apply respects_bind; [apply respects_lift_result|].
  intros link_f. apply respects_bind.
  { intros s1 s2 H. unfold get_mu. rewrite (proj1 (proj2 H)).
    destruct (mu s2); simpl; split; try reflexivity; exact H. }
  intros m. apply respects_bind; [apply respects_in_model|].
  intros r s1 s2 (Hm & Hu & Hp). unfold set_spec. simpl.
  split; [reflexivity | core_goal].
Qed.

Lemma build_after_reset (sp : model_spec) (do_reset : bool)
  (s t : @backend F callable trace advi) :
  (if do_reset then reset else @ret rt_exn _ _ tt) s = (inr tt, t) ->
  build R sp do_reset s
  = bind (set_mu (EConst (mk_ndarray [] [zero R])))
       (fun _ =>
          bind (for_each (build_term R sp) (terms sp))
            (fun _ =>
               bind (lift_result (resolve_link (link (spec_family sp))))
                 (fun link_f =>
                    bind get_mu
                      (fun m =>
                         bind (in_model
                                 (call_build_dist R (noncentered sp)
                                    (y_name (y sp))
                                    (f_prior_name (spec_family sp))
                                    (response_args sp link_f m)))
                           (fun _ =>
                              set_spec
                                (with_response_args sp
                                   (response_args sp link_f m))))))) t.
Proof.
  intros Hp. unfold build. unfold bind at 1. now rewrite Hp.
Qed.

Lemma build_respects_core (sp : model_spec) (do_reset : bool)
  (s1 s2 : @backend F callable trace advi) :
  do_reset = true \/ same_core s1 s2 ->
  fst (build R sp do_reset s1) = fst (build R sp do_reset s2) /\
  same_core (snd (build R sp do_reset s1)) (snd (build R sp do_reset s2)).
Proof.
  intros H.
  assert (H0 : exists t1 t2,
             (if do_reset then reset else @ret rt_exn _ _ tt) s1 = (inr tt, t1) /\
             (if do_reset then reset else @ret rt_exn _ _ tt) s2 = (inr tt, t2) /\
             same_core t1 t2).
  { destruct do_reset.
    - eexists _, _. split; [reflexivity|]. split; [reflexivity|]. core_goal.
    - destruct H as [H|H]; [discriminate|].
      exists s1, s2. split; [reflexivity|]. split; [reflexivity | exact H]. }
  destruct H0 as (t1 & t2 & E1 & E2 & Ht).
  rewrite (build_after_reset _ _ _ _ E1), (build_after_reset _ _ _ _ E2).
  exact (respects_build_after_reset sp t1 t2 Ht).
Qed.

(** X9.  [build] reads the back-end only through its model graph, its
    predictor and its parameter groups, and with reset enabled through
    none of them: two back-ends that agree on the three, or any two
    back-ends when reset is enabled, end in the same outcome with the same
    graph, predictor and parameter groups, and on success hold the same
    specification.  Rebuilding from a used back-end therefore gives what
    building from a fresh one gives. *)
Theorem build_forgets_previous_state (sp : model_spec) (do_reset : bool)
  (s1 s2 : @backend F callable trace advi) :
  do_reset = true \/ same_core s1 s2 ->
  fst (build R sp do_reset s1) = fst (build R sp do_reset s2) /\
  model (snd (build R sp do_reset s1)) = model (snd (build R sp do_reset s2)) /\
  mu (snd (build R sp do_reset s1)) = mu (snd (build R sp do_reset s2)) /\
  par_groups (snd (build R sp do_reset s1))
  = par_groups (snd (build R sp do_reset s2)) /\
  (fst (build R sp do_reset s1) = inr tt ->
   spec (snd (build R sp do_reset s1)) = spec (snd (build R sp do_reset s2))).
Proof.
  intros H.
  destruct (build_respects_core sp do_reset s1 s2 H) as (Hr & Hm & Hu & Hp).
  repeat split; try assumption.
  intros Hok.
  destruct (build R sp do_reset s1) as [[e1|[]] t1] eqn:H1; [discriminate|].
  destruct (build R sp do_reset s2) as [[e2|[]] t2] eqn:H2; [discriminate|].
  simpl in *.
  destruct (build_ok _ _ _ _ H1) as (f1 & m1 & _ & _ & Hl1 & Hm1 & Hs1 & _).
  destruct (build_ok _ _ _ _ H2) as (f2 & m2 & _ & _ & Hl2 & Hm2 & Hs2 & _).
  rewrite Hl1 in Hl2. injection Hl2 as <-.
  rewrite Hu, Hm2 in Hm1. injection Hm1 as <-.
  congruence.
Qed.

(** ** Building again from the specification [build] has written into *)

Lemma dict_set_idem {A : Type} (k : string) (v v' : A)
  (d : list (string * A)) :
  dict_set k v (dict_set k v' d) = dict_set k v d.
Proof.
  induction d as [|[k0 v0] d IH]; simpl.
  - now rewrite String.eqb_refl.
  - destruct (String.eqb k k0) eqn:Hk; simpl; rewrite Hk;
      [reflexivity | now rewrite IH].
Qed.

Lemma dict_set_twice {A : Type} (p o : string) (vp vp' vo vo' : A)
  (d : list (string * A)) :
  dict_set o vo (dict_set p vp' (dict_set o vo' (dict_set p vp d)))
  = dict_set o vo (dict_set p vp' d).
Proof.
  destruct (String.eqb p o) eqn:Hpo.
  - apply String.eqb_eq in Hpo. subst o. now rewrite !dict_set_idem.
  - induction d as [|[k0 v0] d IH]; simpl.
    + rewrite String.eqb_sym, Hpo. simpl. rewrite String.eqb_refl. simpl.
      rewrite String.eqb_sym, Hpo. simpl. now rewrite String.eqb_refl.
    + destruct (String.eqb p k0) eqn:Hp; simpl.
      * apply String.eqb_eq in Hp. subst k0.
        rewrite String.eqb_sym, Hpo. simpl. rewrite String.eqb_refl. simpl.
        rewrite String.eqb_sym, Hpo. now rewrite dict_set_idem.
      * destruct (String.eqb o k0) eqn:Ho; simpl; rewrite Hp; simpl;
          rewrite Ho; [now rewrite dict_set_idem | now rewrite IH].
Qed.

Lemma response_args_rebuilt (sp : @model_spec F callable)
  (f f' : @expr F callable -> @expr F callable) (m m' : @expr F callable) :
  response_args (with_response_args sp (response_args sp f m)) f' m'
  = response_args sp f' m'.
Proof.
  unfold response_args, with_response_args. simpl. apply dict_set_twice.
Qed.

Lemma bind_ext {S A B : Type} (c : @M rt_exn S A)
  (k k' : A -> @M rt_exn S B) :
  (forall a s, k a s = k' a s) -> forall s, bind c k s = bind c k' s.
Proof.
  intros H s. unfold bind. destruct (c s) as [[e|a] s1]; [reflexivity | apply H].
Qed.

(** X10.  [build] writes the link-transformed predictor and the observed
    data into the response prior's own argument dict.  Building from a
    specification that an earlier [build] has written into overwrites the
    two entries in place and is the same, outcome and back-end, as
    building from the specification as it was before. *)
Theorem build_from_written_spec (sp : @model_spec F callable)
  (f : @expr F callable -> @expr F callable) (m : @expr F callable)
  (do_reset : bool) (self : @backend F callable trace advi) :
  build R (with_response_args sp (response_args sp f m)) do_reset self
  = build R sp do_reset self.
Proof.
  unfold build.
  cbn [with_response_args noncentered terms y spec_family parent link
       f_prior_name].
  change (build_term R (with_response_args sp (response_args sp f m)))
    with (build_term R sp).
  apply bind_ext. intros _ s0.
  apply bind_ext. intros _ s1.
  apply bind_ext. intros _ s2.
  apply bind_ext. intros link_f s3.
  apply bind_ext. intros m' s4.
  rewrite response_args_rebuilt. reflexivity.
Qed.

(** * Further properties of [run] *)

(** X11.  [run] leaves the model graph, the predictor, the parameter
    groups and the stored specification alone.  It assigns [self.trace]
    only under "mcmc" and [self.advi_params] only under "advi".  Under
    "mcmc" the trace is stored as soon as the sampler returns, also when
    wrapping it then fails; when the sampler or the variational fit
    raises, the back-end is left as it was. *)
Theorem run_frame (start : option Value) (method init : string) (n_init : Z)
  (kw : Kwargs) (self : @backend F callable trace advi) :
  model (snd (run R start method init n_init kw self)) = model self /\
  mu (snd (run R start method init n_init kw self)) = mu self /\
  par_groups (snd (run R start method init n_init kw self)) = par_groups self /\
  spec (snd (run R start method init n_init kw self)) = spec self /\
  (lower method <> "mcmc" ->
   trace_ (snd (run R start method init n_init kw self)) = trace_ self) /\
  (lower method <> "advi" ->
   advi_params (snd (run R start method init n_init kw self))
   = advi_params self) /\
  (lower method = "mcmc" ->
   match pm_sample R
           (match lookup "samples" kw with Some v => v | None => VInt 1000 end)
           start init n_init (dict_remove "samples" kw) (model self) with
   | inr tr =>
       trace_ (snd (run R start method init n_init kw self)) = Some tr
   | inl e =>
       run R start method init n_init kw self = (inl (Propagated e), self)
   end) /\
  (lower method = "advi" ->
   match ADVI R start kw (model self) with
   | inr a =>
       run R start method init n_init kw self = (inr (RAdvi a), set_advi a self)
   | inl e =>
       run R start method init n_init kw self = (inl (Propagated e), self)
   end).
Proof.
  unfold run.
  destruct (String.eqb (lower method) "mcmc") eqn:H1;
    [|destruct (String.eqb (lower method) "advi") eqn:H2;
      [|destruct (String.eqb (lower method) "laplace") eqn:H3]].
  - apply String.eqb_eq in H1.
    destruct (pm_sample R _ start init n_init _ (model self)) as [e|tr];
      [|destruct (from_pymc3 R tr (model self)) as [e|d]];
      simpl; repeat split; try congruence; intros H; rewrite H1 in H;
      discriminate.
  - apply String.eqb_eq in H2. apply String.eqb_neq in H1.
    destruct (ADVI R start kw (model self)) as [e|a];
      simpl; repeat split; try congruence.
  - apply String.eqb_neq in H1, H2.
    destruct (_laplace R (model self)) as [e|d];
      simpl; repeat split; try congruence.
  - apply String.eqb_neq in H1, H2.
    simpl; repeat split; try congruence.
Qed.




(** * Further properties of [_laplace] *)

Lemma dict_set_in {A : Type} (k k0 : string) (v v0 : A)
  (d : list (string * A)) :
  In (k, v) (dict_set k0 v0 d) -> (k, v) = (k0, v0) \/ In (k, v) d.
Proof.
  induction d as [|[k' v'] d IH]; simpl.
  - intros [H|[]]. left. now symmetry.
  - destruct (String.eqb k0 k') eqn:Hk; simpl.
    + apply String.eqb_eq in Hk. subst k'.
      intros [H|H]; [left; now symmetry | right; now right].
    + intros [H|H]; [right; now left|].
      destruct (IH H) as [H'|H']; [now left | right; now right].
Qed.

Lemma dict_of_in {A : Type} (k : string) (v : A) (pairs : list (string * A)) :
  In (k, v) (dict_of pairs) -> In (k, v) pairs.
Proof.
  unfold dict_of.
  assert (H : forall acc,
             In (k, v) (fold_left (fun d kv => dict_set (fst kv) (snd kv) d)
                          pairs acc) ->
             In (k, v) acc \/ In (k, v) pairs).
  { induction pairs as [|[k0 v0] rest IH]; intros acc Hin; simpl in *;
      [now left|].
    destruct (IH _ Hin) as [H|H]; [|right; now right].
    apply dict_set_in in H as [H|H]; [right; left; now symmetry | now left]. }
  intros Hin. destruct (H [] Hin) as [[]|Hp]. exact Hp.
Qed.

Lemma reshape_walk_shapes (stds : list F) (shapes : list (list nat)) :
  forall idx0 out,
    @reshape_walk F rt_exn stds idx0 shapes = inr out ->
    Forall2 (fun shp a => shape a = shp
                          /\ List.length (items a) = size_of shp) shapes out.
Proof.
  induction shapes as [|shp rest IH]; intros idx0 out H; simpl in H.
  - injection H as <-. constructor.
  - unfold np_reshape in H.
    destruct (Nat.eqb _ (size_of shp)) eqn:Hlen; [|discriminate].
    destruct (reshape_walk stds (idx0 + list_sum shp) rest) as [e|tl] eqn:Hw;
      [discriminate|].
    injection H as <-. constructor; [|exact (IH _ _ Hw)].
    simpl. split; [reflexivity | now apply Nat.eqb_eq].
Qed.

Lemma Forall2_map_combine {A B C : Type} (P : B -> C -> Prop) (f : A -> B)
  (xs : list A) :
  forall ys x y,
    Forall2 P (map f xs) ys -> In (x, y) (combine xs ys) -> P (f x) y.
Proof.
  induction xs as [|x0 xs IH]; intros ys x y HF Hin; simpl in *; [contradiction|].
  inversion HF as [|b c bs cs Hhd Htl]; subst. simpl in Hin.
  destruct Hin as [[= <- <-]|Hin]; [exact Hhd | exact (IH _ _ _ Htl Hin)].
Qed.

(** X13.  Every entry [name -> (mode, std)] of a result of [_laplace]
    belongs to an unobserved variable of the model whose name is not a
    transformed name, and its standard deviations have the shape of the
    mode as [np.atleast_1d] sees it, with as many elements as that shape
    holds. *)
Theorem laplace_result_entries (m : Graph) (d : laplace_result)
  (name : string) (md : mode) (sd : ndarray) :
  _laplace R m = inr d ->
  In (name, (md, sd)) d ->
  In name (unobserved_RVs R m) /\
  is_transformed_name R name = false /\
  shape sd = mode_shape md /\
  List.length (items sd) = size_of (mode_shape md).
Proof.
  unfold _laplace. intros H Hin.
  destruct (find_MAP R (test_point R m) _ m) as [e|maps]; [discriminate|].
  destruct (find_hessian R maps _ m) as [e|hessian]; [discriminate|].
  destruct (is_zero R (det R hessian)); [discriminate|].
  destruct (inv R hessian) as [e|hinv]; [discriminate|].
  match type of H with
  | context [reshape_walk ?s 0 ?l] =>
      destruct (reshape_walk s 0 l) as [e|out] eqn:Hw; [discriminate|]
  end.
  injection H as <-. apply dict_of_in in Hin.
  pose proof (in_combine_l _ _ _ _ Hin) as Hname.
  pose proof (in_combine_r _ _ _ _ Hin) as Hpair.
  apply filter_In in Hname as [Hu Ht]. apply negb_true_iff in Ht.
  split; [exact Hu|]. split; [exact Ht|].
  apply reshape_walk_shapes in Hw.
  exact (Forall2_map_combine _ mode_shape _ _ _ _ Hw Hpair).
Qed.

(** X14.  [_laplace] ends in no exception other than the singular-matrix
    [LinAlgError], the [ValueError] of [np.reshape], and what the runtime
    raised while finding the MAP point, the Hessian or the inverse. *)
Theorem laplace_exceptions (m : Graph) (e : Exn) :
  _laplace R m = inl e ->
  e = LinAlgError "Singular matrix. Use mcmc or advi method" \/
  e = ValueError "cannot reshape array into the requested shape" \/
  exists r, e = Propagated r.
Proof.
  unfold _laplace. intros H.
  destruct (find_MAP R (test_point R m) _ m) as [e1|maps];
    [injection H as <-; right; right; now exists e1|].
  destruct (find_hessian R maps _ m) as [e1|hessian];
    [injection H as <-; right; right; now exists e1|].
  destruct (is_zero R (det R hessian)); [injection H as <-; now left|].
  destruct (inv R hessian) as [e1|hinv];
    [injection H as <-; right; right; now exists e1|].
  match type of H with
  | context [reshape_walk ?s 0 ?l] =>
      destruct (reshape_walk s 0 l) as [e1|out] eqn:Hw; [|discriminate]
  end.
  injection H as <-. right. left. exact (reshape_walk_error _ _ _ _ Hw).
Qed.

Lemma firstn_plus {A : Type} (a b : nat) :
  forall l : list A, firstn (a + b) l = firstn a l ++ firstn b (skipn a l).
Proof.
  induction a as [|a IH]; intros [|x l]; simpl; try reflexivity.
  - now rewrite firstn_nil.
  - now rewrite IH.
Qed.

Lemma slice_app {A : Type} (l : list A) (i a b : nat) :
  slice l i (i + a) ++ slice l (i + a) (i + a + b) = slice l i (i + a + b).
Proof.
  unfold slice.
  replace (i + a - i) with a by lia.
  replace (i + a + b - (i + a)) with b by lia.
  replace (i + a + b - i) with (a + b) by lia.
  rewrite firstn_plus, skipn_skipn. now rewrite (Nat.add_comm a i).
Qed.

Lemma slice_length {A : Type} (l : list A) (i a : nat) :
  i + a <= List.length l -> List.length (slice l i (i + a)) = a.
Proof.
  intros H. unfold slice. rewrite length_firstn, length_skipn. lia.
Qed.

(** The walk over vectors: it succeeds when there are enough standard
    deviations, and hands them out in order, none skipped, none twice. *)
Lemma reshape_walk_vectors (stds : list F) (sizes : list nat) :
  forall idx0,
    idx0 + list_sum sizes <= List.length stds ->
    exists out,
      @reshape_walk F rt_exn stds idx0 (map (fun n => [n]) sizes) = inr out /\
      map (@shape F) out = map (fun n => [n]) sizes /\
      List.concat (map (@items F) out) = slice stds idx0 (idx0 + list_sum sizes).
Proof.
  induction sizes as [|n rest IH]; intros idx0 Hlen; simpl in *.
  - exists []. repeat split. unfold slice.
    now replace (idx0 + 0 - idx0) with 0 by lia.
  - rewrite Nat.add_0_r. unfold np_reshape.
    rewrite (slice_length stds idx0 n) by lia.
    simpl. rewrite Nat.mul_1_r, Nat.eqb_refl.
    destruct (IH (idx0 + n)) as (out & Hw & Hs & Hc); [lia|].
    rewrite Hw. eexists. split; [reflexivity|]. simpl. split.
    + now rewrite Hs.
    + rewrite Hc, Nat.add_assoc. apply slice_app.
Qed.

Lemma mode_shape_vector (v : ndarray) :
  List.length (shape v) <= 1 ->
  mode_shape (mode_of R v) = [size_of (shape v)].
Proof.
  unfold mode_of. destruct v as [[|n [|n' shp]] its]; simpl; intros H.
  - reflexivity.
  - rewrite Nat.mul_1_r. destruct (Nat.eqb n 1) eqn:Hn; simpl.
    + apply Nat.eqb_eq in Hn. now subst n.
    + reflexivity.
  - lia.
Qed.

(** X15.  On a model whose untransformed variables are scalars and
    vectors, once the MAP point, the Hessian and its inverse are obtained
    and the determinant is not zero, [_laplace] returns a result, provided
    the diagonal of the inverse has an entry for every element of every
    variable; the reshaped standard deviations are then the diagonal's
    entries in order, none skipped and none used twice. *)
Theorem laplace_on_vectors (m : Graph) (maps : list (string * ndarray))
  (hessian hinv : list (list F)) :
  let varis :=
    filter (fun v => negb (is_transformed_name R v)) (unobserved_RVs R m) in
  let values :=
    map snd (filter (fun kv => negb (is_transformed_name R (fst kv))) maps) in
  let stds := diag_from 0 (map (map (sqrt_half R)) hinv) in
  let total := list_sum (map (fun v => size_of (shape v)) values) in
  find_MAP R (test_point R m) varis m = inr maps ->
  find_hessian R maps varis m = inr hessian ->
  is_zero R (det R hessian) = false ->
  inv R hessian = inr hinv ->
  Forall (fun v => List.length (shape v) <= 1) values ->
  total <= List.length stds ->
  exists out,
    _laplace R m
    = inr (dict_of (combine varis (combine (map (mode_of R) values) out))) /\
    map (@shape F) out = map (fun v => [size_of (shape v)]) values /\
    List.concat (map (@items F) out) = firstn total stds.
Proof.
  intros varis values stds total Hm Hh Hz Hi Hrank Htotal.
  assert (Hshapes : map mode_shape (map (mode_of R) values)
                    = map (fun n => [n])
                        (map (fun v => size_of (shape v)) values)).
  { rewrite !map_map. apply map_ext_in. intros v Hv.
    apply mode_shape_vector. rewrite Forall_forall in Hrank. now apply Hrank. }
  destruct (reshape_walk_vectors stds
              (map (fun v => size_of (shape v)) values) 0)
    as (out & Hw & Hs & Hc); [exact Htotal|].
  exists out. split; [|split].
  - unfold _laplace. fold varis. rewrite Hm, Hh, Hz, Hi.
    fold values. fold stds. rewrite Hshapes, Hw. reflexivity.
  - rewrite Hs. now rewrite map_map.
  - rewrite Hc. unfold slice. simpl. now rewrite Nat.sub_0_r.
Qed.

(** * The non-centered branch and the prior's own distribution *)

(** X16.  When a call of the builder takes the non-centered branch, the
    distribution the prior names is resolved but not used: any two
    identifiers that resolve give the same outcome and the same graph. *)
Theorem noncentered_ignores_distribution (nc : bool) (label : string)
  (dist dist' : dist_id) (kw : Kwargs) (g : Graph) (d d' : callable)
  (kw' : Kwargs) (g1 : Graph) :
  resolve_dist R (dists R) dist = inr d ->
  resolve_dist R (dists R) dist' = inr d' ->
  expand_kwargs R nc label kw g = (inr kw', g1) ->
  noncentered_cond nc kw' = true ->
  _build_dist R nc label dist kw g = _build_dist R nc label dist' kw g.
Proof.
  intros Hd Hd' He Hc.
  unfold _build_dist, build_dist_body, bind, lift_result.
  rewrite Hd, Hd', He. unfold construct. now rewrite Hc.
Qed.

End Properties.

(** * The properties on the concrete runtime *)

(** C1.  The branch is chosen by the four conditions, but what it then
    does is not available to every call that meets them.  With
    non-centered mode on, the coefficient prior [Normal(mu=0,
    sigma=Prior("HalfNormal", sigma=Prior("HalfCauchy", beta=1)))] makes
    the builder call itself for the label [b_sigma] with the single keyword
    [sigma]; that keyword resolves to a transformed variable, the four
    conditions hold, and the call ends in [KeyError("shape")]: no offset
    variable is declared and no deterministic product is returned. *)
Theorem noncentered_branch_without_shape :
  noncentered_cond true
    [("sigma", @VRV Z string (mk_rv TransformedRV "b_sigma_sigma"))] = true /\
  _build_dist demo true "b_sigma" (DName "HalfNormal")
    [("sigma", demo_halfcauchy)] []
  = (inl (KeyError "shape"),
     [NDist "b_sigma_sigma" "HalfCauchy" [("beta", VInt 1)] TransformedRV]) /\
  _build_dist demo true "b" (DName "Normal") demo_kwargs []
  = (inl (KeyError "shape"),
     [NDist "b_sigma_sigma" "HalfCauchy" [("beta", VInt 1)] TransformedRV]).
Proof. repeat split. Qed.

(** C2.  For one variable of shape [(2, 3)] the walk of the code takes a
    slice of [2 + 3] standard deviations where the variable has [2 * 3]
    elements, and [_laplace] ends in the [ValueError] of [np.reshape]; the
    walk by number of elements returns the reshaped array. *)
Theorem laplace_matrix_variable_raises :
  _laplace (demo_runtime demo_matrix_point (identity_rows 6 0)) []
  = inl (ValueError "cannot reshape array into the requested shape") /\
  @reshape_walk Z string [1; 1; 1; 1; 1; 1]%Z 0 [[2; 3]]
  = inl (ValueError "cannot reshape array into the requested shape") /\
  @walk_by_size Z string [1; 1; 1; 1; 1; 1]%Z 0 [[2; 3]]
  = inr [mk_ndarray [2; 3] [1; 1; 1; 1; 1; 1]%Z].
Proof. repeat split. Qed.

(** On a vector and a scalar the walk returns one standard deviation per
    element, in the shape of each variable. *)
Example laplace_vector_point :
  _laplace (demo_runtime demo_vector_point (identity_rows 4 0)) []
  = inr [("x", (MArray (mk_ndarray [3] [1; 2; 3]%Z),
                mk_ndarray [3] [1; 1; 1]%Z));
         ("s", (MItem 7%Z, mk_ndarray [1] [1]%Z))].
Proof. reflexivity. Qed.

Lemma laplace_singular_hessian_witness :
  _laplace (demo_runtime demo_vector_point demo_singular_hessian) []
  = inl (LinAlgError "Singular matrix. Use mcmc or advi method").
Proof.
  apply (proj2 (proj1 (laplace_singular_hessian
                         (demo_runtime demo_vector_point demo_singular_hessian)
                         []))).
  exists demo_vector_point, demo_singular_hessian. repeat split.
Defined.


Lemma hyperpriors_are_built_first_witness :
  exists d kw' g1 own,
    resolve_dist demo (dists demo) (DName "Normal") = inr d /\
    expand_kwargs demo false "b" demo_kwargs [] = (inr kw', g1) /\
    Forall2 (expanded_item demo false "b" [] g1) demo_kwargs kw' /\
    construct demo false "b" d kw' g1 = (inr (mk_rv FreeRV "b"), demo_graph) /\
    demo_graph = g1 ++ own /\
    (exists n, In n own /\ node_name n = "b").
Proof.
  apply (hyperpriors_are_built_first demo false "b" (DName "Normal")
           demo_kwargs [] (mk_rv FreeRV "b") demo_graph).
  reflexivity.
Defined.

Lemma noncentered_branch_needs_shape_witness :
  _expand_args demo true "b" "sigma" demo_nested_sigma []
  = (inl (KeyError "shape"),
     [NDist "b_sigma_sigma" "HalfCauchy" [("beta", VInt 1)] TransformedRV]).
Proof.
  destruct (noncentered_branch_needs_shape demo true "b" "sigma"
              (DName "HalfNormal") [("sigma", demo_halfcauchy)] []
              "HalfNormal"
              [("sigma", VRV (mk_rv TransformedRV "b_sigma_sigma"))]
              [NDist "b_sigma_sigma" "HalfCauchy" [("beta", VInt 1)]
                 TransformedRV]
              eq_refl eq_refl eq_refl eq_refl) as (_ & Hk & _).
  exact (proj2 (Hk eq_refl)).
Defined.

Lemma run_dispatch_witness :
  run demo None "McMc" "auto" 50000 [] demo_self
  = run demo None "mcmc" "auto" 50000 [] demo_self /\
  run demo None "LAPLACE" "auto" 50000 [] demo_self
  = (inr (RLaplace []), demo_self) /\
  run demo None "nuts" "auto" 50000 [] demo_self = (inr RNone, demo_self).
Proof.
  split; [|split].
  - apply (proj1 (run_dispatch demo None "mcmc" "auto" 50000 [] demo_self)).
    reflexivity.
  - apply (proj1 (proj2 (proj2 (proj2 (proj2
             (run_dispatch demo None "LAPLACE" "auto" 50000 [] demo_self)))))).
    reflexivity.
  - apply (proj2 (proj2 (proj2 (proj2 (proj2
             (run_dispatch demo None "nuts" "auto" 50000 [] demo_self))))));
      intros H; vm_compute in H; discriminate H.
Defined.

Lemma fixed_effect_contribution_witness :
  build demo demo_hier_spec true demo_self = (inr tt, demo_hier_built) /\
  (exists pre rest kw' cls,
      model demo_hier_built = pre ++ [NDist "x" "Normal" kw' cls] ++ rest /\
      lookup "shape" kw' = Some (VInt 2)) /\
  (exists pre rest sname cls,
      model demo_hier_built
      = pre ++ [NDist "z_offset" "Normal" (offset_kwargs (VInt 2)) cls;
                NDeterministic "z" (EMul (EVar "z_offset") (EVar sname))]
            ++ rest) /\
  eval demo demo_env (EColumn (EDot (EConst (t_data demo_fixed)) (EVar "x")))
  = Some (mk_ndarray [3; 1] [210; 430; 650]%Z).
Proof.
  assert (Hb : build demo demo_hier_spec true demo_self
               = (inr tt, demo_hier_built)) by reflexivity.
  split; [exact Hb|].
  destruct (fixed_effect_contribution demo demo_hier_spec true demo_self
              demo_hier_built Hb) as (coefs & Hall & _ & Hterms).
  inversion Hall as [|t1 c1 ts1 cs1 _ Hrest Ht Hc]. subst.
  inversion Hrest as [|t2 c2 ts2 cs2 _ _ Ht2 Hc2]. subst.
  destruct (Hterms demo_fixed c1 3 2 (or_introl eq_refl) eq_refl eq_refl)
    as (_ & Hdecl1 & _ & Hcontrib & Heval).
  destruct (Hterms demo_fixed_hier c2 3 2 (or_intror (or_introl eq_refl))
              eq_refl eq_refl) as (_ & Hdecl2 & _).
  split; [|split].
  - destruct Hdecl1
      as (d & kw' & ga & pre & own & rest & _ & Hd & _ & Hs & _ & Hmodel & Hown).
    vm_compute in Hd. injection Hd as <-.
    destruct Hown as [(_ & cls & _ & ->)|(_ & sname & cls & _ & _ & ->)].
    + exists pre, rest, kw', cls. split; [exact Hmodel | exact Hs].
    + exfalso.
      assert (Hin : In (NDeterministic "x"
                          (EMul (EVar "x_offset") (@EVar Z string sname)))
                       (model demo_hier_built)).
      { rewrite Hmodel. simpl. apply in_or_app. right. right. now left. }
      vm_compute in Hin.
      repeat (destruct Hin as [Hin|Hin]; [discriminate Hin|]). exact Hin.
  - destruct Hdecl2
      as (d & kw' & ga & pre & own & rest & _ & Hd & _ & Hs & _ & Hmodel & Hown).
    destruct Hown as [(_ & cls & _ & ->)|(_ & sname & cls & _ & _ & ->)].
    + exfalso.
      assert (Hin : In (NDist "z" d kw' cls) (model demo_hier_built)).
      { rewrite Hmodel. simpl. apply in_or_app. right. now left. }
      vm_compute in Hin.
      repeat (destruct Hin as [Hin|Hin]; [discriminate Hin|]). exact Hin.
    + exists pre, rest, sname, cls. exact Hmodel.
  - pose proof (Heval demo_env [10; 100]%Z eq_refl) as He.
    rewrite Hcontrib in He. exact He.
Defined.

Lemma random_effect_contribution_witness :
  build demo demo_spec true demo_self = (inr tt, demo_built) /\
  exists out,
    eval demo demo_env
      (EMul (EColumn (ETake (EVar "1|g") [0; 1; 0]%Z))
            (EConst (mk_ndarray [3; 1] [7; 8; 9]%Z)))
    = Some (mk_ndarray [3; 1] out) /\
    nth 0 out 0%Z = (3 * 7)%Z /\
    nth 1 out 0%Z = (4 * 8)%Z /\
    nth 2 out 0%Z = (3 * 9)%Z.
Proof.
  assert (Hb : build demo demo_spec true demo_self = (inr tt, demo_built))
    by reflexivity.
  split; [exact Hb|].
  destruct (random_effect_contribution demo demo_spec true demo_self demo_built Hb)
    as (coefs & Hall & _ & Hterms).
  inversion Hall as [|t1 c1 ts1 cs1 _ Hrest Ht Hc]. subst.
  inversion Hrest as [|t2 c2 ts2 cs2 _ _ Ht2 Hc2]. subst.
  destruct (Hterms demo_random c2 (or_intror (or_introl eq_refl)) eq_refl)
    as (Hcontrib & Heval).
  destruct (Heval demo_env [3; 4]%Z [7; 8; 9]%Z eq_refl) as (out & He & _ & Hrow).
  - repeat constructor; lia.
  - reflexivity.
  - reflexivity.
  - exists out. rewrite Hcontrib in He. split; [exact He|].
    split; [exact (Hrow 0 ltac:(simpl; lia))|].
    split; [exact (Hrow 1 ltac:(simpl; lia)) | exact (Hrow 2 ltac:(simpl; lia))].
Defined.

(** * The further properties on the concrete runtime *)

Lemma builder_exceptions_witness :
  (exists s, @ValueError string (not_found_msg "Norma")
             = ValueError (not_found_msg s)) \/
  @ValueError string (not_found_msg "Norma") = KeyError "shape" \/
  @ValueError string (not_found_msg "Norma")
  = TypeError "_build_dist() got multiple values for argument" \/
  exists r, @ValueError string (not_found_msg "Norma") = Propagated r.
Proof.
  apply (builder_exceptions demo false "b" (DName "Norma") demo_kwargs []).
  reflexivity.
Defined.

Lemma centered_one_variable_per_prior_witness :
  exists ext,
    demo_graph = [] ++ ext /\
    List.length ext = 3 /\
    forallb is_dist_node ext = true.
Proof.
  apply (centered_one_variable_per_prior demo "b" (DName "Normal")
           demo_kwargs [] (mk_rv FreeRV "b") demo_graph).
  reflexivity.
Defined.

Lemma response_is_declared_directly_witness :
  exists g1 d kw' c,
    model demo_built = g1 ++ [NDist "y" d kw' c] /\
    resolve_dist demo (dists demo) (DName "Normal") = inr d /\
    lookup "observed" kw' = Some (VArray (mk_ndarray [3] [10; 20; 30]%Z)) /\
    noncentered_cond true kw' = false.
Proof.
  apply (response_is_declared_directly demo demo_spec true demo_self demo_built).
  reflexivity.
Defined.

Lemma build_stores_spec_witness :
  exists link_f m args,
    resolve_link (link (spec_family demo_spec)) = @inr (@exn string) _ link_f /\
    mu demo_built = Some m /\
    spec demo_built = Some (with_response_args demo_spec args) /\
    lookup "observed" args = Some (VArray (mk_ndarray [3] [10; 20; 30]%Z)) /\
    ("mu" <> "observed" -> lookup "mu" args = Some (VExpr (link_f m))) /\
    (forall k, k <> "observed" -> k <> "mu" ->
     lookup k args = lookup k (f_prior_args (spec_family demo_spec))).
Proof.
  apply (proj2 (build_stores_spec demo demo_spec true demo_self) demo_built).
  reflexivity.
Defined.

Lemma build_needs_registered_link_witness :
  exists e,
    fst (build demo demo_spec_probit true demo_self) = inl e /\
    spec (snd (build demo demo_spec_probit true demo_self)) = spec demo_self.
Proof.
  apply (build_needs_registered_link demo demo_spec_probit true demo_self
           "probit").
  - reflexivity.
  - simpl. intros [H|[H|[H|[H|[H|[]]]]]]; discriminate H.
Defined.

Lemma terms_must_be_admissible_witness :
  Forall term_admissible (terms demo_spec).
Proof.
  apply (proj2 (proj2 (terms_must_be_admissible demo demo_spec))
           true demo_self demo_built).
  reflexivity.
Defined.

Lemma build_forgets_previous_state_witness :
  fst (build demo demo_spec true demo_self)
  = fst (build demo demo_spec true demo_built) /\
  model (snd (build demo demo_spec true demo_self))
  = model (snd (build demo demo_spec true demo_built)) /\
  mu (snd (build demo demo_spec true demo_self))
  = mu (snd (build demo demo_spec true demo_built)) /\
  par_groups (snd (build demo demo_spec true demo_self))
  = par_groups (snd (build demo demo_spec true demo_built)) /\
  (fst (build demo demo_spec true demo_self) = inr tt ->
   spec (snd (build demo demo_spec true demo_self))
   = spec (snd (build demo demo_spec true demo_built))).
Proof.
  apply (build_forgets_previous_state demo demo_spec true demo_self demo_built).
  left. reflexivity.
Defined.

Lemma run_frame_witness :
  trace_ (snd (run demo None "nuts" "auto" 50000 [] demo_built))
  = trace_ demo_built /\
  trace_ (snd (run demo None "MCMC" "auto" 50000 [] demo_built)) = Some 0.
Proof.
  destruct (run_frame demo None "nuts" "auto" 50000 [] demo_built)
    as (_ & _ & _ & _ & Ht & _).
  destruct (run_frame demo None "MCMC" "auto" 50000 [] demo_built)
    as (_ & _ & _ & _ & _ & _ & Hm & _).
  split.
  - apply Ht. intros H. vm_compute in H. discriminate H.
  - exact (Hm eq_refl).
Defined.


Lemma laplace_result_entries_witness :
  In "s" (unobserved_RVs (demo_runtime demo_vector_point (identity_rows 4 0)) [])
  /\ is_transformed_name (demo_runtime demo_vector_point (identity_rows 4 0)) "s"
     = false
  /\ shape (mk_ndarray [1] [1%Z]) = mode_shape (MItem 7%Z)
  /\ List.length (items (mk_ndarray [1] [1%Z])) = size_of (mode_shape (MItem 7%Z)).
Proof.
  apply (laplace_result_entries
           (demo_runtime demo_vector_point (identity_rows 4 0)) []
           [("x", (MArray (mk_ndarray [3] [1; 2; 3]%Z),
                   mk_ndarray [3] [1; 1; 1]%Z));
            ("s", (MItem 7%Z, mk_ndarray [1] [1]%Z))]
           "s" (MItem 7%Z) (mk_ndarray [1] [1%Z])).
  - reflexivity.
  - right. left. reflexivity.
Defined.

Lemma laplace_exceptions_witness :
  @ValueError string "cannot reshape array into the requested shape"
  = LinAlgError "Singular matrix. Use mcmc or advi method" \/
  @ValueError string "cannot reshape array into the requested shape"
  = ValueError "cannot reshape array into the requested shape" \/
  exists r,
    @ValueError string "cannot reshape array into the requested shape"
    = Propagated r.
Proof.
  apply (laplace_exceptions
           (demo_runtime demo_matrix_point (identity_rows 6 0)) []).
  reflexivity.
Defined.

Lemma laplace_on_vectors_witness :
  exists out,
    _laplace (demo_runtime demo_vector_point (identity_rows 4 0)) []
    = inr (dict_of
             (combine ["x"; "s"]
                (combine [MArray (mk_ndarray [3] [1; 2; 3]%Z); MItem 7%Z] out)))
    /\ map (@shape Z) out = [[3]; [1]]
    /\ List.concat (map (@items Z) out) = [1; 1; 1; 1]%Z.
Proof.
  apply (laplace_on_vectors
           (demo_runtime demo_vector_point (identity_rows 4 0)) []
           demo_vector_point (identity_rows 4 0) (identity_rows 4 0)).
  - reflexivity.
  - reflexivity.
  - reflexivity.
  - reflexivity.
  - repeat constructor.
  - simpl. lia.
Defined.

Lemma noncentered_ignores_distribution_witness :
  _build_dist demo true "b" (DName "Normal") demo_sigma_kwargs []
  = _build_dist demo true "b" (DName "Cauchy") demo_sigma_kwargs [].
Proof.
  apply (noncentered_ignores_distribution demo true "b"
           (DName "Normal") (DName "Cauchy") demo_sigma_kwargs []
           "Normal" "Cauchy"
           [("shape", VInt 2); ("mu", VInt 0);
            ("sigma", VRV (mk_rv TransformedRV "b_sigma"))]
           [NDist "b_sigma" "HalfCauchy" [("beta", VInt 1)] TransformedRV]);
    reflexivity.
Defined.
